(** * GraphyCalculator: tokenizer, Pratt parser and evaluator

    A shallow embedding of [graphycalculator.js].  The program tokenizes an
    expression string into an array of token objects, turns those very
    objects into the nodes of a parse tree by assigning their [left],
    [right] and [type] fields (Top Down Operator Precedence), and evaluates
    the tree at bindings for [x] and [y].

    Modelling choices, all forced by the source language:
    - a JavaScript Number is an IEEE 754 binary64 value: [spec_float] at
      precision 53 and maximal exponent 1024, with the Standard Library's
      bit-exact operations;
    - a JavaScript string is a [string]; the tokenizer only ever inspects
      ASCII characters, every other code unit takes the failure path;
    - the token objects live in the token array, which is therefore the
      heap: a reference to a node is its index in the array, [undefined] is
      [None], and an assignment to a field is an in-place update of the
      array at that index;
    - a property read on an object literal that has no such property
      falls back to [Object.prototype]; a member of [Object.prototype]
      that ends up in a function node is called as ECMAScript defines it,
      and the operators convert what it returns as ECMAScript defines
      them;
    - [throw] is a completion carrying the thrown value;
    - the functions of the host's [Math] object are parameters;
    - the call stack has no limit. *)

From Stdlib Require Import ZArith NArith String Ascii List Bool Lia.
From Stdlib Require Import Floats.SpecFloat.
From stdpp Require Import base option list strings gmap sorting.

Local Open Scope string_scope.
Local Open Scope Z_scope.

(** ** Numbers *)

Module Number.

Definition prec : Z := 53.
Definition emax : Z := 1024.

Definition number : Type := spec_float.

Definition add : number -> number -> number := SFadd prec emax.
Definition sub : number -> number -> number := SFsub prec emax.
Definition mul : number -> number -> number := SFmul prec emax.
Definition div : number -> number -> number := SFdiv prec emax.
Definition neg : number -> number := SFopp.
(** [a == b] on two Numbers. *)
Definition eqb : number -> number -> bool := SFeqb.
(** [a <= b] on two Numbers. *)
Definition leb : number -> number -> bool := SFleb.

(** The Number nearest to an integer (ties to even). *)
Definition of_Z (z : Z) : number := binary_normalize prec emax z 0 false.

Definition zero : number := S754_zero false.
Definition infinity : number := S754_infinity false.
Definition NaN : number := S754_nan.

(** The sign bit; [NaN] has none. *)
Definition sign_bit (v : number) : option bool :=
  match v with
  | S754_zero s | S754_infinity s | S754_finite s _ _ => Some s
  | S754_nan => None
  end.

(** The Number nearest to [m / d] for [d > 0], with sign [s]: the
    quotient is taken with the division core of [SFdiv], which accepts
    mantissas of any size, and rounded once. *)
Definition of_ratio (s : bool) (m : Z) (d : positive) : number :=
  match m with
  | Zpos p =>
      let '(q, e, l) := SFdiv_core_binary prec emax (Zpos p) 0 (Zpos d) 0 in
      binary_round_aux prec emax s q e l
  | _ => S754_zero s
  end.

(** [Math.E] and [Math.PI]. *)
Definition E : number := S754_finite false 6121026514868073 (-51).
Definition PI : number := S754_finite false 7074237752028440 (-51).

End Number.

Abbreviation number := Number.number.

(** ** Strings and the three regular expressions of [lex_scan] *)

Definition is_digit (c : ascii) : bool :=
  let n := N_of_ascii c in ((48 <=? n) && (n <=? 57))%N.

Definition is_alpha_ (c : ascii) : bool :=
  let n := N_of_ascii c in
  (((65 <=? n) && (n <=? 90)) || ((97 <=? n) && (n <=? 122)) || (n =? 95))%N.

(** [str.slice(i)]. *)
Fixpoint slice (str : string) (i : nat) : string :=
  match i, str with
  | O, _ => str
  | S i', String _ rest => slice rest i'
  | S _, EmptyString => EmptyString
  end.

(** The longest prefix of characters satisfying [p], and the rest. *)
Fixpoint span (p : ascii -> bool) (str : string) : string * string :=
  match str with
  | String c rest =>
      if p c then let '(a, b) := span p rest in (String c a, b)
      else (EmptyString, str)
  | EmptyString => (EmptyString, EmptyString)
  end.

(** [-?]: the optional sign and what follows it. *)
Definition opt_minus (str : string) : string * string :=
  match str with
  | String "-" rest => ("-", rest)
  | _ => (EmptyString, str)
  end.

(** The body of [reg_float] after the sign: either one or more digits, a
    dot and any number of digits, or a dot and one or more digits. *)
Definition float_body (str : string) : option string :=
  let '(ds, rest) := span is_digit str in
  match ds, rest with
  | String _ _, String "." rest' =>
      let '(fs, _) := span is_digit rest' in Some (ds ++ "." ++ fs)
  | EmptyString, String "." rest' =>
      match span is_digit rest' with
      | (String c fs, _) => Some ("." ++ String c fs)
      | _ => None
      end
  | _, _ => None
  end.

(** [str.match(reg_float)]: the matched text [match[0]], or [None] for
    [null].  When the sign is taken and the body
    fails, the regular expression backtracks to an empty sign, and then
    fails on the [-] itself. *)
Definition reg_float (str : string) : option string :=
  let '(sg, rest) := opt_minus str in
  match float_body rest with
  | Some body => Some (sg ++ body)
  | None => None
  end.

(** [str.match(reg_int)]: an optional sign and one or more digits. *)
Definition reg_int (str : string) : option string :=
  let '(sg, rest) := opt_minus str in
  match span is_digit rest with
  | (String c ds, _) => Some (sg ++ String c ds)
  | _ => None
  end.

(** [str.match(reg_sym)]: a letter or underscore, then any number of
    letters, digits and underscores. *)
Definition reg_sym (str : string) : option string :=
  match str with
  | String c rest =>
      if is_alpha_ c
      then Some (String c (fst (span (fun d => is_alpha_ d || is_digit d) rest)))
      else None
  | EmptyString => None
  end.

(** *** [parseInt] and [parseFloat] on the texts the tokenizer hands them *)

Definition pow10 (n : nat) : positive := Nat.iter n (Pos.mul 10) 1%positive.

Definition digit_value (c : ascii) : Z := Z.of_N (N_of_ascii c) - 48.

(** The integer written by a string of decimal digits, continuing [acc]. *)
Fixpoint decimal (acc : Z) (ds : string) : Z :=
  match ds with
  | String c rest => decimal (10 * acc + digit_value c) rest
  | EmptyString => acc
  end.

Definition is_minus (sg : string) : bool :=
  match sg with String "-" _ => true | _ => false end.

(** [parseInt(text)] for [text] matched by [reg_int]: the integer, read in
    base ten as ECMAScript 5 has it, rounded to a Number, with the sign of
    the text. *)
Definition parseInt (text : string) : number :=
  let '(sg, rest) := opt_minus text in
  let '(ds, _) := span is_digit rest in
  Number.of_ratio (is_minus sg) (decimal 0 ds) 1.

(** [parseFloat(text)] for [text] matched by [reg_float]: all the digits
    read as one integer, over ten to the number of fraction digits. *)
Definition parseFloat (text : string) : number :=
  let '(sg, rest) := opt_minus text in
  let '(ds, rest') := span is_digit rest in
  let fs := match rest' with
            | String "." r => fst (span is_digit r)
            | _ => EmptyString
            end in
  Number.of_ratio (is_minus sg) (decimal (decimal 0 ds) fs)
                  (pow10 (String.length fs)).

(** ** Values, objects and completions *)

(** The entries of [function_table]. *)
Inductive func :=
  | Math_abs | Math_acos | Math_asin | Math_atan | Math_ceil | Math_cos
  | Math_exp | Math_floor | Math_log | Math_round | Math_sin | sinc
  | Math_sqrt | Math_tan.

(** What a [value] field or a table entry can hold.  [Inherited name] is
    the member [name] of [Object.prototype], which a property read on an
    object literal reaches when the object has no such property itself. *)
Inductive jsvalue :=
  | Undefined
  | Num (n : number)
  | Str (s : string)
  | Fun (f : func)
  | Inherited (name : string).

(** Which literal or [create_..._token] call made an object: it fixes the
    object's [nud] and [led] closures and the variables they captured. *)
Inductive maker :=
  | operator_token (str : string) (bp right_assoc also_unary : Z)
  | value_token
  | function_token
  | variable_token
  | rparen_token
  | lparen_token.

(** A token object; after parsing, a node of the tree.  A field the
    object does not have reads as [undefined]: [None], or [Undefined]. *)
Record object := {
  made_by : maker;
  type : option string;
  lbp : option Z;
  value : jsvalue;
  left : option nat;
  right : option nat
}.

(** The array of token objects; a node is referred to by its index. *)
Abbreviation heap := (list object).

(** Thrown values: the string of a [throw] statement, the string built in
    [evaluate_tree]'s default case (kept in parts), or a host [TypeError]. *)
Inductive thrown :=
  | Message (msg : string)
  | UnhandledNode (ty : option string) (v : jsvalue)
  | TypeError.

(** How a call completes.  [Beyond v] marks the evaluator reading, from
    a literal token, a [value] that is not a Number: no token of
    [lex_scan] holds one, and what the operators do with it is not
    modelled.  [OutOfFuel] is not a behaviour of the program. *)
Inductive completion (A : Type) :=
  | Normal (a : A)
  | Throw (e : thrown)
  | Beyond (v : jsvalue)
  | OutOfFuel.
Arguments Normal {A} a.
Arguments Throw {A} e.
Arguments Beyond {A} v.
Arguments OutOfFuel {A}.

(** ** Token constructors *)

Definition create_operator_token (str : string) (bp right_assoc also_unary : Z)
  : object :=
  {| made_by := operator_token str bp right_assoc also_unary;
     type := None; lbp := Some bp; value := Undefined;
     left := None; right := None |}.

Definition create_value_token (val : jsvalue) : object :=
  {| made_by := value_token;
     type := Some "value"; lbp := None; value := val;
     left := None; right := None |}.

Definition create_function_token (f : jsvalue) : object :=
  {| made_by := function_token;
     type := Some "function"; lbp := None; value := f;
     left := None; right := None |}.

Definition create_variable_token (name : string) : object :=
  {| made_by := variable_token;
     type := Some "variable"; lbp := None; value := Str name;
     left := None; right := None |}.

Definition rparen : object :=
  {| made_by := rparen_token;
     type := Some ")"; lbp := Some 0; value := Undefined;
     left := None; right := None |}.

Definition lparen : object :=
  {| made_by := lparen_token;
     type := Some "("; lbp := Some 80; value := Undefined;
     left := None; right := None |}.

(** ** Symbol tables *)

Definition function_table : gmap string jsvalue :=
  list_to_map
    [ ("abs", Fun Math_abs); ("acos", Fun Math_acos); ("asin", Fun Math_asin);
      ("atan", Fun Math_atan); ("ceil", Fun Math_ceil); ("cos", Fun Math_cos);
      ("exp", Fun Math_exp); ("floor", Fun Math_floor); ("log", Fun Math_log);
      ("round", Fun Math_round); ("sin", Fun Math_sin); ("sinc", Fun sinc);
      ("sqrt", Fun Math_sqrt); ("tan", Fun Math_tan) ].

Definition constant_table : gmap string jsvalue :=
  list_to_map
    [ ("E", Num Number.E); ("e", Num Number.E);
      ("pi", Num Number.PI); ("PI", Num Number.PI) ].

(** The property names of [Object.prototype], the prototype of every
    object literal (ECMAScript, with its Annex B for browsers). *)
Definition Object_prototype : list string :=
  [ "constructor"; "hasOwnProperty"; "isPrototypeOf"; "propertyIsEnumerable";
    "toLocaleString"; "toString"; "valueOf"; "__proto__";
    "__defineGetter__"; "__defineSetter__"; "__lookupGetter__";
    "__lookupSetter__" ].

(** [table[name]] on an object literal: the object's own property, else
    the one it inherits, else [undefined]. *)
Definition get (table : gmap string jsvalue) (name : string) : jsvalue :=
  match table !! name with
  | Some v => v
  | None => if bool_decide (name ∈ Object_prototype) then Inherited name
            else Undefined
  end.

(** ** The tokenizer *)

(** The [switch (str[0])]: the single terminal characters and white
    space, with the tokens pushed and the increment of [i]; [None] when the
    switch falls through. *)
Definition single_character (str : string) : option (list object * nat) :=
  match str with
  | String "+" _ => Some ([create_operator_token "+" 50 0 1], 1%nat)
  | String "-" _ => Some ([create_operator_token "-" 50 0 1], 1%nat)
  | String "*" _ => Some ([create_operator_token "*" 60 0 0], 1%nat)
  | String "/" _ => Some ([create_operator_token "/" 60 0 0], 1%nat)
  | String "^" _ => Some ([create_operator_token "^" 75 1 0], 1%nat)
  | String ")" _ => Some ([rparen], 1%nat)
  | String "(" _ => Some ([lparen], 1%nat)
  | String " " _ | String "009" _ | String "013" _ | String "010" _ =>
      Some ([], 1%nat)
  | _ => None
  end.

(** The token made for a symbol name [m] matched by [reg_sym]. *)
Definition classify (m : string) : completion object :=
  if (m =? "x")%string || (m =? "y")%string
  then Normal (create_variable_token m)
  else
    match get function_table m with
    | Undefined =>
        match get constant_table m with
        | Undefined => Throw (Message ("unknown symbol " ++ m))
        | con => Normal (create_value_token con)
        end
    | f => Normal (create_function_token f)
    end.

(** One pass through the body of the [while] loop of [lex_scan] on
    [str = exp_str.slice(i)]: the tokens pushed and the increment of [i],
    or the value thrown. *)
Definition lex_body (str : string) : completion (list object * nat) :=
  match single_character str with
  | Some r => Normal r
  | None =>
      match reg_float str with
      | Some m =>
          Normal ([create_value_token (Num (parseFloat m))], String.length m)
      | None =>
      match reg_int str with
      | Some m =>
          Normal ([create_value_token (Num (parseInt m))], String.length m)
      | None =>
      match reg_sym str with
      | Some m =>
          match classify m with
          | Normal o => Normal ([o], String.length m)
          | Throw e => Throw e
          | Beyond v => Beyond v
          | OutOfFuel => OutOfFuel
          end
      | None => Throw (Message ("Failed in processing input: " ++ str))
      end end end
  end.

(** The [while (i < il)] loop; each pass advances [i], so [il - i + 1]
    units of fuel always suffice. *)
Fixpoint lex_loop (fuel : nat) (exp_str : string) (il : nat)
    (tokens : list object) (i : nat) : completion (list object) :=
  match fuel with
  | O => OutOfFuel
  | S fuel' =>
      if (i <? il)%nat then
        match lex_body (slice exp_str i) with
        | Normal (pushed, n) =>
            lex_loop fuel' exp_str il (tokens ++ pushed) (i + n)
        | Throw e => Throw e
        | Beyond v => Beyond v
        | OutOfFuel => OutOfFuel
        end
      else Normal tokens
  end.

Definition lex_scan (exp_str : string) : completion (list object) :=
  let il := String.length exp_str in
  lex_loop (S il) exp_str il [] 0.

(** ** Calls that read and write a state *)

Definition M (S A : Type) : Type := S -> completion A * S.

Definition ret {S A} (a : A) : M S A := fun s => (Normal a, s).
Definition throw {S A} (e : thrown) : M S A := fun s => (Throw e, s).

Definition bind {S A B} (m : M S A) (k : A -> M S B) : M S B :=
  fun s =>
    match m s with
    | (Normal a, s') => k a s'
    | (Throw e, s') => (Throw e, s')
    | (Beyond v, s') => (Beyond v, s')
    | (OutOfFuel, s') => (OutOfFuel, s')
    end.

Notation "x <- m ;; k" := (bind m (fun x => k))
  (at level 100, m at next level, right associativity).
Notation "m ;;; k" := (bind m (fun _ => k))
  (at level 100, right associativity).

(** ** The parsing engine *)

(** The [state] object of [create_parse_tree]. *)
Record state := { tokens : heap; i : nat }.

Definition at_end (s : state) : bool := (length (tokens s) <=? i s)%nat.

(** What [s.token()] returns: the object [tokens[i]], or a new object
    [{lbp: 0, type: 'end'}] that has no [nud] and no [led]. *)
Inductive token_ref := at_index (k : nat) | end_token.

Definition token (s : state) : token_ref :=
  if at_end s then end_token else at_index (i s).

Definition token_lbp (s : state) : option Z :=
  match token s with
  | end_token => Some 0
  | at_index k => o ← tokens s !! k; lbp o
  end.

Definition token_type (s : state) : option string :=
  match token s with
  | end_token => Some "end"
  | at_index k => o ← tokens s !! k; type o
  end.

Definition advance : M state unit :=
  fun s => (Normal tt, {| tokens := tokens s; i := S (i s) |}).

(** [rbp < lbp], false when [lbp] is [undefined]. *)
Definition binds_tighter (rbp : Z) (l : option Z) : bool :=
  match l with Some l => rbp <? l | None => false end.

Definition set_left (l : option nat) (o : object) : object :=
  {| made_by := made_by o; type := type o; lbp := lbp o; value := value o;
     left := l; right := right o |}.
Definition set_right (r : option nat) (o : object) : object :=
  {| made_by := made_by o; type := type o; lbp := lbp o; value := value o;
     left := left o; right := r |}.
Definition set_type (ty : string) (o : object) : object :=
  {| made_by := made_by o; type := Some ty; lbp := lbp o; value := value o;
     left := left o; right := right o |}.

(** An assignment [this.field = ...] on the object at index [t]. *)
Definition assign (t : nat) (f : object -> object) : M state unit :=
  fun s => (Normal tt, {| tokens := alter f t (tokens s); i := i s |}).

(** The object behind a reference, when its methods are looked up. *)
Definition deref (t : nat) : M state object :=
  fun s => match tokens s !! t with
           | Some o => (Normal o, s)
           | None => (Throw TypeError, s)
           end.

(** [t.nud(s)] for the object [t]; [expression] is [s.expression]. *)
Definition nud (expression : Z -> M state (option nat)) (t : nat)
  : M state (option nat) :=
  o <- deref t ;;
  match made_by o with
  | operator_token str bp right_assoc also_unary =>
      if negb (also_unary =? 1) then throw (Message "error in operator nud")
      else
        l <- expression 70 ;;
        assign t (set_left l) ;;;
        assign t (set_type ("op_u" ++ str)) ;;;
        ret (Some t)
  | value_token => ret (Some t)
  | function_token =>
      l <- expression 70 ;;
      assign t (set_left l) ;;;
      ret (Some t)
  | variable_token => ret (Some t)
  | rparen_token => throw (Message "Internal error: nud called on ')'")
  | lparen_token =>
      e <- expression 0 ;;
      fun s =>
        if negb (bool_decide (token_type s = Some ")"))
        then throw (Message "Unmatched left parenthesis.") s
        else (advance ;;; ret e) s
  end.

(** [t.led(left, s)]. *)
Definition led (expression : Z -> M state (option nat)) (t : nat)
    (l : option nat) : M state (option nat) :=
  o <- deref t ;;
  match made_by o with
  | operator_token str bp right_assoc also_unary =>
      assign t (set_left l) ;;;
      r <- expression (bp - right_assoc) ;;
      assign t (set_right r) ;;;
      assign t (set_type ("op_b" ++ str)) ;;;
      ret (Some t)
  | value_token => throw (Message "led called on a value token.")
  | function_token => throw (Message "Internal error: led called on a function.")
  | variable_token => throw (Message "Internal error: led called on a variable.")
  | rparen_token => throw (Message "Internal error: led called on ')'")
  | lparen_token => throw (Message "Interal error, led called on '('")
  end.

(** [state.expression], and its [while] loop.  Every call and every pass
    through the loop takes a token first, so fuel above the number of
    tokens left is never used up. *)
Fixpoint expression (fuel : nat) (rbp : Z) : M state (option nat) :=
  match fuel with
  | O => fun s => (OutOfFuel, s)
  | S fuel' => fun s =>
      if at_end s then ret None s
      else
        let t := i s in
        (advance ;;;
         l <- nud (expression fuel') t ;;
         expression_loop fuel' rbp l) s
  end
with expression_loop (fuel : nat) (rbp : Z) (l : option nat)
  : M state (option nat) :=
  match fuel with
  | O => fun s => (OutOfFuel, s)
  | S fuel' => fun s =>
      if binds_tighter rbp (token_lbp s) then
        match token s with
        | at_index t =>
            (advance ;;;
             l' <- led (expression fuel') t l ;;
             expression_loop fuel' rbp l') s
        | end_token => (advance ;;; throw TypeError) s
        end
      else ret l s
  end.

Definition create_parse_tree (toks : heap) : completion (option nat) * state :=
  expression (S (length toks)) 0 {| tokens := toks; i := 0 |}.

(** [parse(input)]: the root of the tree and the objects it is made of. *)
Definition parse (input : string) : completion (option nat * heap) :=
  match lex_scan input with
  | Normal toks =>
      match create_parse_tree toks with
      | (Normal root, s) => Normal (root, tokens s)
      | (Throw e, _) => Throw e
      | (Beyond v, _) => Beyond v
      | (OutOfFuel, _) => OutOfFuel
      end
  | Throw e => Throw e
  | Beyond v => Beyond v
  | OutOfFuel => OutOfFuel
  end.

(** ** The evaluator *)

(** The host's [Math] object, as far as the program uses it. *)
Module Math.
Record host := {
  abs : number -> number;
  acos : number -> number;
  asin : number -> number;
  atan : number -> number;
  ceil : number -> number;
  cos : number -> number;
  exp : number -> number;
  floor : number -> number;
  log : number -> number;
  round : number -> number;
  sin : number -> number;
  sqrt : number -> number;
  tan : number -> number;
  pow : number -> number -> number
}.
End Math.

(** *** The values of the evaluator

    As long as every function node holds an entry of [function_table],
    [evaluate_tree] computes with Numbers only.  A function node that
    holds a member of [Object.prototype] returns what that member returns
    when it is called on the node with the evaluated operand as its one
    argument, and the operators convert such values.  The types below hold
    every value that can come up in this way. *)

(** A primitive value.  Every string that comes up contains the text
    "[object Object]", the string of a token object and of an empty
    object; what was concatenated to it is kept in parts, each part the
    primitive value whose string it is. *)
Inductive primitive :=
  | js_undefined
  | js_boolean (b : bool)
  | js_number (n : number)
  | js_string (s : chars)
with chars :=
  | object_Object
  | before (p : primitive) (s : chars)
  | after (s : chars) (p : primitive).

(** A value: a primitive, a token object (its index in the array), or an
    object made during evaluation by a call of [Object], which is the
    [constructor] member of [Object.prototype]: an empty object, or the
    wrapper of a primitive.  Such an object has an identity of its own:
    [id] counts the objects made before it. *)
Inductive result :=
  | primitive_value (p : primitive)
  | token_object (k : nat)
  | made_object (id : nat) (wrapped : option primitive).

Definition number_value (n : number) : result := primitive_value (js_number n).

(** What a call of the evaluator works on: the token objects, and the
    number of objects that evaluation has made so far. *)
Record memory := { objects : heap; made : nat }.

Section Evaluator.

Variable H : Math.host.

(** A call of an entry of [function_table] on a Number. *)
Definition call (f : func) (v : number) : number :=
  match f with
  | Math_abs => Math.abs H v
  | Math_acos => Math.acos H v
  | Math_asin => Math.asin H v
  | Math_atan => Math.atan H v
  | Math_ceil => Math.ceil H v
  | Math_cos => Math.cos H v
  | Math_exp => Math.exp H v
  | Math_floor => Math.floor H v
  | Math_log => Math.log H v
  | Math_round => Math.round H v
  | Math_sin => Math.sin H v
  | sinc =>
      if Number.eqb v Number.zero then Number.of_Z 1
      else Number.div (Math.sin H v) v
  | Math_sqrt => Math.sqrt H v
  | Math_tan => Math.tan H v
  end.

(** Reading the object behind a reference. *)
Definition read (k : nat) : M memory object :=
  fun m => match objects m !! k with
           | Some o => (Normal o, m)
           | None => (Throw TypeError, m)
           end.

(** [tree.type === ty], a case label of the [switch]. *)
Definition type_is (o : object) (ty : string) : bool :=
  match type o with
  | Some t => (t =? ty)%string
  | None => false
  end.

(** [tree.value === 'x' ? x : y]. *)
Definition binding (o : object) (x y : number) : number :=
  match value o with
  | Str name => if (name =? "x")%string then x else y
  | _ => y
  end.

(** ECMAScript's ToPrimitive.  A token object and an empty object
    inherit [valueOf] and [toString] from [Object.prototype]: the first
    returns the object itself, so the second is used.  A wrapper's
    [valueOf] returns what it wraps. *)
Definition ToPrimitive (v : result) : primitive :=
  match v with
  | primitive_value p => p
  | token_object _ | made_object _ None => js_string object_Object
  | made_object _ (Some p) => p
  end.

(** ECMAScript's ToNumber.  No string that comes up is the text of a
    number. *)
Definition ToNumber (v : result) : number :=
  match ToPrimitive v with
  | js_undefined => Number.NaN
  | js_boolean b => if b then Number.of_Z 1 else Number.zero
  | js_number n => n
  | js_string _ => Number.NaN
  end.

(** [a + b]: the concatenation of the operands' strings when one of them
    is a string after ToPrimitive, the sum of their Numbers otherwise. *)
Definition plus (a b : result) : result :=
  primitive_value
    match ToPrimitive a, ToPrimitive b with
    | js_string s, q => js_string (after s q)
    | p, js_string t => js_string (before p t)
    | _, _ => js_number (Number.add (ToNumber a) (ToNumber b))
    end.

(** A new object, with the next identity. *)
Definition make (wrapped : option primitive) : M memory result :=
  fun m => (Normal (made_object (made m) wrapped),
            {| objects := objects m; made := S (made m) |}).

(** [Object(a)]: a new empty object for [undefined], a new wrapper for
    any other primitive, and [a] itself when it is an object. *)
Definition Object_call (a : result) : M memory result :=
  match a with
  | primitive_value js_undefined => make None
  | primitive_value p => make (Some p)
  | _ => ret a
  end.

(** [tree.value(a)] when [tree.value] is the member [name] of
    [Object.prototype]; [this] is the function token [tree].
    - [constructor] is [Object];
    - [toString] gives "[object Object]" for an object literal, and
      [toLocaleString] calls [toString];
    - [valueOf] returns [this];
    - [hasOwnProperty] and [propertyIsEnumerable] look among the
      properties of [this] (type, value, led, nud, left) for the string of
      [a], and [isPrototypeOf] looks for [this] among the prototypes of
      [a]: of the values that come up none has such a string or such a
      prototype;
    - [__lookupGetter__] and [__lookupSetter__] look for an accessor
      named by the string of [a], and there is none;
    - [__defineGetter__] and [__defineSetter__] throw a [TypeError],
      their second argument not being a function;
    - [__proto__] is [Object.prototype] itself, which is not a function,
      as is any other value that is none of the above. *)
Definition call_inherited (this : nat) (name : string) (a : result)
  : M memory result :=
  if (name =? "constructor")%string then Object_call a
  else if (name =? "toString")%string || (name =? "toLocaleString")%string
  then ret (primitive_value (js_string object_Object))
  else if (name =? "valueOf")%string then ret (token_object this)
  else if (name =? "hasOwnProperty")%string
          || (name =? "propertyIsEnumerable")%string
          || (name =? "isPrototypeOf")%string
  then ret (primitive_value (js_boolean false))
  else if (name =? "__lookupGetter__")%string
          || (name =? "__lookupSetter__")%string
  then ret (primitive_value js_undefined)
  else throw TypeError.

(** [tree.value(a)] for an evaluated argument [a], [tree] being the
    object [o] at index [this].  The functions of [Math] convert their
    argument by ToNumber; so does, in effect, [sinc]: its test [x == 0]
    compares the Number of [x] with 0 for every value that comes up, and
    so does its division. *)
Definition apply_value (this : nat) (o : object) (a : result)
  : M memory result :=
  match value o with
  | Fun f => ret (number_value (call f (ToNumber a)))
  | Inherited name => call_inherited this name a
  | _ => throw TypeError
  end.

(** [evaluate_tree(tree, x, y)], for Numbers [x] and [y].  The recursion
    follows the references held in the heap, so it is bounded by fuel.
    The operators other than [+] convert their operands by ToNumber, and
    so does [Math.pow]; the prefix [+] of the program does not convert. *)
Fixpoint evaluate_tree (fuel : nat) (tree : option nat) (x y : number)
  : M memory result :=
  match fuel with
  | O => fun m => (OutOfFuel, m)
  | S fuel' =>
      match tree with
      | None => throw (Message "Error parsing input, probably invalid.")
      | Some k =>
          o <- read k ;;
          let operand := evaluate_tree fuel' (left o) x y in
          let operand2 := evaluate_tree fuel' (right o) x y in
          if type_is o "value" then
            match value o with
            | Num n => ret (number_value n)
            | v => fun m => (Beyond v, m)
            end
          else if type_is o "variable" then ret (number_value (binding o x y))
          else if type_is o "function" then
            a <- operand ;; apply_value k o a
          else if type_is o "op_u+" then operand
          else if type_is o "op_b+" then
            a <- operand ;; b <- operand2 ;; ret (plus a b)
          else if type_is o "op_u-" then
            a <- operand ;; ret (number_value (Number.neg (ToNumber a)))
          else if type_is o "op_b-" then
            a <- operand ;; b <- operand2 ;;
            ret (number_value (Number.sub (ToNumber a) (ToNumber b)))
          else if type_is o "op_b*" then
            a <- operand ;; b <- operand2 ;;
            ret (number_value (Number.mul (ToNumber a) (ToNumber b)))
          else if type_is o "op_b/" then
            a <- operand ;; b <- operand2 ;;
            ret (number_value (Number.div (ToNumber a) (ToNumber b)))
          else if type_is o "op_b^" then
            a <- operand ;; b <- operand2 ;;
            ret (number_value (Math.pow H (ToNumber a) (ToNumber b)))
          else throw (UnhandledNode (type o) (value o))
      end
  end.

(** [create_evaluator(tree)]: the returned closure, applied. *)
Definition create_evaluator (fuel : nat) (tree : option nat)
  : number -> number -> M memory result :=
  fun x y => evaluate_tree fuel tree x y.

End Evaluator.

(** ** Expression trees

    The tree that a region of the heap holds, as a value of its own: used
    to say what [parse] built, never by the program. *)
Inductive tree :=
  | Missing
  | Literal (n : number)
  | Variable_ref (name : string)
  | Apply (f : jsvalue) (argument : tree)
  | Unary (str : string) (operand : tree)
  | Binary (str : string) (l r : tree).

(** [represents h lo hi r t]: the reference [r] is the root of [t] in the
    heap [h], and every node of [t] sits at an index in [lo, hi). *)
Inductive represents (h : heap) (lo hi : nat) : option nat -> tree -> Prop :=
  | rep_missing : represents h lo hi None Missing
  | rep_literal k o n :
      (lo <= k < hi)%nat -> h !! k = Some o ->
      type o = Some "value" -> value o = Num n ->
      represents h lo hi (Some k) (Literal n)
  | rep_variable k o name :
      (lo <= k < hi)%nat -> h !! k = Some o ->
      type o = Some "variable" -> value o = Str name ->
      represents h lo hi (Some k) (Variable_ref name)
  | rep_apply k o t :
      (lo <= k < hi)%nat -> h !! k = Some o ->
      type o = Some "function" ->
      (exists f, value o = Fun f) \/ (exists name, value o = Inherited name) ->
      represents h lo hi (left o) t ->
      represents h lo hi (Some k) (Apply (value o) t)
  | rep_unary k o str t :
      (lo <= k < hi)%nat -> h !! k = Some o ->
      type o = Some ("op_u" ++ str) -> str ∈ ["+"; "-"] ->
      represents h lo hi (left o) t ->
      represents h lo hi (Some k) (Unary str t)
  | rep_binary k o str tl tr :
      (lo <= k < hi)%nat -> h !! k = Some o ->
      type o = Some ("op_b" ++ str) -> str ∈ ["+"; "-"; "*"; "/"; "^"] ->
      represents h lo hi (left o) tl ->
      represents h lo hi (right o) tr ->
      represents h lo hi (Some k) (Binary str tl tr).

(** No operand of the tree is missing. *)
Fixpoint complete (t : tree) : bool :=
  match t with
  | Missing => false
  | Literal _ | Variable_ref _ => true
  | Apply _ a => complete a
  | Unary _ a => complete a
  | Binary _ a b => complete a && complete b
  end.

Fixpoint height (t : tree) : nat :=
  match t with
  | Missing | Literal _ | Variable_ref _ => 1
  | Apply _ a | Unary _ a => S (height a)
  | Binary _ a b => S (Nat.max (height a) (height b))
  end.

(** The members of [Object.prototype] that the function nodes of a tree
    hold, from left to right. *)
Fixpoint inherited_members (t : tree) : list string :=
  match t with
  | Missing | Literal _ | Variable_ref _ => []
  | Apply (Inherited name) a => name :: inherited_members a
  | Apply _ a | Unary _ a => inherited_members a
  | Binary _ a b => inherited_members a ++ inherited_members b
  end.

(** The members of [Object.prototype] whose call by the evaluator
    returns. *)
Definition returning_members : list string :=
  [ "constructor"; "toString"; "toLocaleString"; "valueOf"; "hasOwnProperty";
    "propertyIsEnumerable"; "isPrototypeOf"; "__lookupGetter__";
    "__lookupSetter__" ].

(** What the evaluator can do with the tree [t]: return when no operand
    is missing, a Number when moreover no function node holds a member of
    [Object.prototype]; throw its complaint when an operand is missing;
    throw a [TypeError] when a function node holds a member of
    [Object.prototype] that it cannot call. *)
Definition verdict (t : tree) (c : completion result) : Prop :=
  match c with
  | Normal v =>
      complete t = true /\
      (inherited_members t = [] -> exists n, v = number_value n)
  | Throw e =>
      (e = Message "Error parsing input, probably invalid." /\
       complete t = false) \/
      (e = TypeError /\
       exists name, name ∈ inherited_members t /\ name ∉ returning_members)
  | Beyond _ | OutOfFuel => False
  end.




(** The binary operators on the values of the operands. *)
Definition operate (H : Math.host) (str : string) (a b : result) : result :=
  if (str =? "+")%string then plus a b
  else number_value
         (if (str =? "-")%string then Number.sub (ToNumber a) (ToNumber b)
          else if (str =? "*")%string then Number.mul (ToNumber a) (ToNumber b)
          else if (str =? "/")%string then Number.div (ToNumber a) (ToNumber b)
          else Math.pow H (ToNumber a) (ToNumber b)).


(** The binding powers, associativity and prefix use of the operator
    characters, as [lex_scan] passes them to [create_operator_token]. *)
Definition operators : list (string * Z * Z * Z) :=
  [ ("+", 50, 0, 1); ("-", 50, 0, 1); ("*", 60, 0, 0); ("/", 60, 0, 0);
    ("^", 75, 1, 0) ].

Definition nonnegative (v : number) : Prop := Number.sign_bit v = Some false.

(** The shapes of the objects [lex_scan] makes, as far as parsing keeps
    them. *)
Definition token_ok (o : object) : Prop :=
  match made_by o with
  | operator_token str bp right_assoc also_unary =>
      (str, bp, right_assoc, also_unary) ∈ operators
  | value_token =>
      type o = Some "value" /\ exists n, value o = Num n /\ nonnegative n
  | function_token =>
      type o = Some "function" /\
      ((exists f, value o = Fun f) \/ (exists name, value o = Inherited name))
  | variable_token =>
      type o = Some "variable" /\ (value o = Str "x" \/ value o = Str "y")
  | rparen_token => type o = Some ")"
  | lparen_token => type o = Some "("
  end.

(** The tokens left to parse. *)
Definition remaining (s : state) : nat := (length (tokens s) - i s)%nat.

(** What a parsing step that started in [s] and returned [r] in [s']
    did: it moved the cursor forward, wrote only to objects from index
    [wlo] up to the cursor, and the objects from [lo] up to the cursor
    hold the tree of [r]. *)
Definition parsed (wlo lo : nat) (s s' : state) (r : option nat) : Prop :=
  length (tokens s') = length (tokens s) /\
  (i s <= i s')%nat /\ (i s' <= length (tokens s))%nat /\
  Forall token_ok (tokens s') /\
  (forall k, (k < wlo \/ i s' <= k)%nat -> tokens s' !! k = tokens s !! k) /\
  exists t, represents (tokens s') lo (i s') r t.

(** A state the parsing engine can start from. *)
Definition ready (s : state) : Prop :=
  Forall token_ok (tokens s) /\ (i s <= length (tokens s))%nat.

(** What [nud] and [led] need of the [expression] they are given. *)
Definition expression_spec (e : Z -> M state (option nat)) : Prop :=
  forall rbp s r s',
    ready s -> e rbp s = (Normal r, s') -> parsed (i s) (i s) s s' r.

(** A call that returned or threw: it neither ran out of fuel nor left
    the model. *)
Definition completes {S A} (p : completion A * S) : Prop :=
  match p.1 with
  | Normal _ | Throw _ => True
  | Beyond _ | OutOfFuel => False
  end.

(** A stand-in for [s.expression] that throws when it is called with
    the minimum binding power [at_rbp] and returns [undefined] otherwise:
    it shows with which argument [nud] and [led] make their call. *)
Definition trap (at_rbp : Z) : Z -> M state (option nat) :=
  fun rbp => if rbp =? at_rbp then throw (Message "trap") else ret None.

(** A host to run the examples on.  It is exact where they look: [pow]
    multiplies out a small non-negative integer exponent, [abs] and [sqrt]
    are the IEEE operations, and [sin] maps zero to zero.  Elsewhere its
    entries are placeholders. *)
Definition pow_nat (a : number) (n : nat) : number :=
  Nat.iter n (fun r => Number.mul r a) (Number.of_Z 1).

Definition sample_host : Math.host :=
  {| Math.abs := SFabs; Math.acos := id; Math.asin := id; Math.atan := id;
     Math.ceil := id; Math.cos := fun _ => Number.of_Z 1; Math.exp := id;
     Math.floor := id; Math.log := id; Math.round := id; Math.sin := id;
     Math.sqrt := SFsqrt Number.prec Number.emax; Math.tan := id;
     Math.pow := fun a b =>
       match find (fun k => Number.eqb b (Number.of_Z (Z.of_nat k))) (seq 0 16) with
       | Some k => pow_nat a k
       | None => Number.NaN
       end |}.

(** [e] returns or throws from every state with fewer than [n] tokens
    left. *)
Definition expression_total (e : Z -> M state (option nat)) (n : nat) : Prop :=
  forall rbp s, ready s -> (remaining s < n)%nat -> completes (e rbp s).

(** What C1 asks of a tree that [parse] returns: the heap holds a tree
    for the root, and no operand of it is missing. *)
Definition fully_formed (h : heap) (root : option nat) : Prop :=
  exists t, represents h 0 (length h) root t /\ complete t = true.

(** A completion of the evaluator that is a Number or a thrown value. *)
Definition of_number (c : completion number) : completion result :=
  match c with
  | Normal n => Normal (number_value n)
  | Throw e => Throw e
  | Beyond v => Beyond v
  | OutOfFuel => OutOfFuel
  end.

(** [input] parses, and the evaluator of the returned tree completes with
    [c] at the bindings [x], [y], whatever fuel of at least [n0] it is
    given, and leaves the memory as it found it. *)
Definition evaluates (H : Math.host) (input : string) (x y : number)
    (c : completion number) : Prop :=
  exists root h n0,
    parse input = Normal (root, h) /\
    forall fuel made0,
      let m := {| objects := h; made := made0 |} in
      evaluate_tree H (n0 + fuel) root x y m = (of_number c, m).

(** ** Further notions *)

(** The objects that the literals and [create_..._token] calls of
    [lex_scan] can make. *)
Definition fresh_token (o : object) : Prop :=
  (exists str bp right_assoc also_unary,
     (str, bp, right_assoc, also_unary) ∈ operators /\
     o = create_operator_token str bp right_assoc also_unary) \/
  (exists n, o = create_value_token (Num n)) \/
  (exists f, o = create_function_token (Fun f)) \/
  (exists name, name ∈ Object_prototype /\
                o = create_function_token (Inherited name)) \/
  o = create_variable_token "x" \/ o = create_variable_token "y" \/
  o = rparen \/ o = lparen.

(** A symbol name that [lex_scan] rejects. *)
Definition unknown_symbol (m : string) : Prop :=
  m <> "x" /\ m <> "y" /\ function_table !! m = None /\
  constant_table !! m = None /\ m ∉ Object_prototype.

(** A text on which the switch falls through and no pattern matches. *)
Definition unmatched (str : string) : Prop :=
  single_character str = None /\ reg_float str = None /\
  reg_int str = None /\ reg_sym str = None.

(** The characters the switch skips. *)
Definition is_space (c : ascii) : bool :=
  match c with
  | " " | "009" | "013" | "010" => true
  | _ => false
  end%char.

Fixpoint all_spaces (str : string) : bool :=
  match str with
  | String c rest => is_space c && all_spaces rest
  | EmptyString => true
  end.

(** What parsing may change of a token object: the [left], [right] and
    [type] of an operator token, the [left] of a function token, and
    nothing of any other. *)
Definition kept (o o' : object) : Prop :=
  made_by o' = made_by o /\ value o' = value o /\ lbp o' = lbp o /\
  match made_by o with
  | operator_token _ _ _ _ => True
  | function_token => type o' = type o /\ right o' = right o
  | _ => o' = o
  end.

(** [spans h lo hi r t]: as [represents], and the nodes of [t] read from
    left to right (a binary operator between its operands, a prefix
    operator or function before its operand) sit at increasing indices
    between [lo] and [hi]. *)
Inductive spans (h : heap) : nat -> nat -> option nat -> tree -> Prop :=
  | span_missing lo hi : (lo <= hi)%nat -> spans h lo hi None Missing
  | span_literal lo hi k o n :
      (lo <= k < hi)%nat -> h !! k = Some o ->
      type o = Some "value" -> value o = Num n ->
      spans h lo hi (Some k) (Literal n)
  | span_variable lo hi k o name :
      (lo <= k < hi)%nat -> h !! k = Some o ->
      type o = Some "variable" -> value o = Str name ->
      spans h lo hi (Some k) (Variable_ref name)
  | span_apply lo hi k o t :
      (lo <= k < hi)%nat -> h !! k = Some o ->
      type o = Some "function" ->
      (exists f, value o = Fun f) \/ (exists name, value o = Inherited name) ->
      spans h (S k) hi (left o) t ->
      spans h lo hi (Some k) (Apply (value o) t)
  | span_unary lo hi k o str t :
      (lo <= k < hi)%nat -> h !! k = Some o ->
      type o = Some ("op_u" ++ str) -> str ∈ ["+"; "-"] ->
      spans h (S k) hi (left o) t ->
      spans h lo hi (Some k) (Unary str t)
  | span_binary lo hi k o str tl tr :
      (lo <= k < hi)%nat -> h !! k = Some o ->
      type o = Some ("op_b" ++ str) -> str ∈ ["+"; "-"; "*"; "/"; "^"] ->
      spans h lo k (left o) tl ->
      spans h (S k) hi (right o) tr ->
      spans h lo hi (Some k) (Binary str tl tr).

(** The indices of the nodes of a tree held by the heap, read from left
    to right. *)
Fixpoint inorder (h : heap) (r : option nat) (t : tree) : list nat :=
  match r, t with
  | Some k, Literal _ | Some k, Variable_ref _ => [k]
  | Some k, Apply _ a | Some k, Unary _ a =>
      k :: inorder h (o ← h !! k; left o) a
  | Some k, Binary _ a b =>
      inorder h (o ← h !! k; left o) a ++ k :: inorder h (o ← h !! k; right o) b
  | _, _ => []
  end.

(** The number of nodes of a tree. *)
Fixpoint nodes (t : tree) : nat :=
  match t with
  | Missing => 0
  | Literal _ | Variable_ref _ => 1
  | Apply _ a | Unary _ a => S (nodes a)
  | Binary _ a b => S (nodes a + nodes b)
  end.

(** What [nud] and [led] need of [expression] for the stronger
    description of a parsing step. *)
Definition strict_spec (e : Z -> M state (option nat)) : Prop :=
  forall rbp s r s',
    ready s -> e rbp s = (Normal r, s') ->
    Forall2 kept (tokens s) (tokens s') /\
    (exists t, spans (tokens s') (i s) (i s') r t) /\
    (r = None -> s' = s /\ at_end s = true).

(** The binding power that the maker of an object gives it. *)
Definition lbp_of (m : maker) : option Z :=
  match m with
  | operator_token _ bp _ _ => Some bp
  | rparen_token => Some 0
  | lparen_token => Some 80
  | _ => None
  end.

(** The strings that the parsing engine can throw on the tokens of
    [lex_scan]. *)
Definition parser_errors : list thrown :=
  [ Message "error in operator nud";
    Message "Internal error: nud called on ')'";
    Message "Unmatched left parenthesis.";
    Message "Interal error, led called on '('" ].

(** A completion that is not a thrown value outside [parser_errors]. *)
Definition parser_fine {A} (c : completion A) : Prop :=
  match c with
  | Throw e => e ∈ parser_errors
  | _ => True
  end.

(** A state of the parsing engine whose objects have the binding power
    their maker gave them. *)
Definition lexed (s : state) : Prop :=
  ready s /\ Forall (fun o => lbp o = lbp_of (made_by o)) (tokens s).

(** [e], called with a binding power that is not negative, throws only
    values of [parser_errors]. *)
Definition expression_fine (e : Z -> M state (option nat)) : Prop :=
  forall rbp s, lexed s -> 0 <= rbp -> parser_fine (e rbp s).1.

(** A token whose [nud] or [led] asks [expression] for an operand: an
    operator or a function name. *)
Definition takes_operand (o : object) : Prop :=
  match made_by o with
  | operator_token _ _ _ _ | function_token => True
  | _ => False
  end.

(** The last token of the array takes an operand. *)
Definition open_ended (h : heap) : Prop :=
  exists o, last h = Some o /\ takes_operand o.

(** What a parsing step that returned [r] in [s'] built from the tokens
    from [lo] on: a tree laid out as [spans] says, with an operand missing
    exactly when no token is left and the last token takes an operand. *)
Definition settled (lo : nat) (s' : state) (r : option nat) : Prop :=
  exists t,
    spans (tokens s') lo (i s') r t /\
    (complete t = false <->
     i s' = length (tokens s') /\ open_ended (tokens s')).

(** What [nud] and [led] need of [expression] for that: what it returns
    is settled, and it returns in front of a token that does not bind
    tighter than asked. *)
Definition settled_spec (e : Z -> M state (option nat)) : Prop :=
  forall rbp s r s',
    lexed s -> 0 <= rbp -> e rbp s = (Normal r, s') ->
    (r <> None -> settled (i s) s' r) /\
    binds_tighter rbp (token_lbp s') = false.

(** * Properties *)

(** ** Facts about Numbers *)

Lemma shr_1_nonneg mrs : 0 <= shr_m mrs -> 0 <= shr_m (shr_1 mrs).
Proof.
  destruct mrs as [m r s]; destruct m as [|[p|p|]|[p|p|]]; simpl; lia.
Qed.

Lemma iter_shr_1_nonneg p : forall mrs,
  0 <= shr_m mrs -> 0 <= shr_m (SpecFloat.iter_pos shr_1 p mrs).
Proof.
  induction p as [p IH|p IH|]; intros mrs Hm; simpl.
  - apply IH, IH, shr_1_nonneg, Hm.
  - apply IH, IH, Hm.
  - apply shr_1_nonneg, Hm.
Qed.

Lemma shr_fexp_nonneg m e l :
  0 <= m -> 0 <= shr_m (fst (shr_fexp Number.prec Number.emax m e l)).
Proof.
  intros Hm. unfold shr_fexp, shr.
  assert (Hr : 0 <= shr_m (shr_record_of_loc m l))
    by (destruct l as [|[]]; exact Hm).
  destruct (_ - e) as [|p|p]; simpl; auto using iter_shr_1_nonneg.
Qed.

Lemma round_nearest_even_nonneg m l : 0 <= m -> 0 <= round_nearest_even m l.
Proof.
  intros Hm. destruct l as [|[]]; simpl; try lia. destruct (Z.even m); lia.
Qed.

Lemma binary_round_aux_sign s m e l :
  0 <= m ->
  Number.sign_bit (binary_round_aux Number.prec Number.emax s m e l) = Some s.
Proof.
  intros Hm. unfold binary_round_aux.
  pose proof (shr_fexp_nonneg m e l Hm) as H1.
  destruct (shr_fexp _ _ m e l) as [mrs' e']. simpl in H1.
  pose proof (shr_fexp_nonneg _ e' loc_Exact
                (round_nearest_even_nonneg _ (loc_of_shr_record mrs') H1)) as H2.
  destruct (shr_fexp _ _ _ e' loc_Exact) as [mrs'' e'']. simpl in H2.
  destruct (shr_m mrs'') as [|q|q]; [reflexivity| |lia].
  destruct (e'' <=? _); reflexivity.
Qed.

Lemma of_ratio_sign s m d : Number.sign_bit (Number.of_ratio s m d) = Some s.
Proof.
  unfold Number.of_ratio. destruct m as [|p|p]; try reflexivity.
  unfold SFdiv_core_binary.
  set (e' := Z.min _ _). set (m' := match 0 - 0 - e' with 0 => _ | _ => _ end).
  assert (Hm' : 0 <= m').
  { subst m'. destruct (0 - 0 - e'); try lia. apply Z.shiftl_nonneg. lia. }
  pose proof (Z_div_mod m' (Z.pos d) ltac:(lia)) as Hdiv.
  destruct (Z.div_eucl m' (Z.pos d)) as [q r].
  apply binary_round_aux_sign. nia.
Qed.

Lemma nonnegative_leb v : nonnegative v -> Number.leb Number.zero v = true.
Proof.
  destruct v as [[]|[]| |[] m e]; cbv; congruence.
Qed.

(** ** Facts about the tokenizer *)

Lemma length_append (a b : string) :
  String.length (a ++ b) = (String.length a + String.length b)%nat.
Proof.
  induction a as [|c a IH]; [reflexivity|].
  change (S (String.length (a ++ b)) = S (String.length a + String.length b)).
  now rewrite IH.
Qed.

Lemma single_character_spec str r :
  single_character str = Some r ->
  Forall token_ok r.1 /\ r.2 = 1%nat.
Proof.
  destruct str as [|c rest]; [discriminate|].
  destruct c as [[] [] [] [] [] [] [] []]; cbn; intros [= <-]; split;
    try reflexivity; repeat constructor; cbn; unfold operators; set_solver.
Qed.

Lemma function_table_lookup m v :
  function_table !! m = Some v -> exists f, v = Fun f.
Proof.
  intros Hm. apply elem_of_list_to_map_2 in Hm.
  repeat (apply elem_of_cons in Hm as [Hm|Hm];
          [injection Hm as _ ->; eauto|]).
  now apply elem_of_nil in Hm.
Qed.

Lemma constant_table_lookup m v :
  constant_table !! m = Some v -> exists n, v = Num n /\ nonnegative n.
Proof.
  intros Hm. apply elem_of_list_to_map_2 in Hm.
  repeat (apply elem_of_cons in Hm as [Hm|Hm];
          [injection Hm as _ ->; eexists; split; reflexivity|]).
  now apply elem_of_nil in Hm.
Qed.

Lemma classify_ok m o : classify m = Normal o -> token_ok o.
Proof.
  unfold classify.
  destruct ((m =? "x")%string || (m =? "y")%string) eqn:Hxy.
  - intros [= <-]. cbn. split; [reflexivity|].
    apply orb_true_iff in Hxy as [H|H]; apply String.eqb_eq in H; subst; auto.
  - unfold get. destruct (function_table !! m) as [v|] eqn:Hf.
    + destruct (function_table_lookup _ _ Hf) as [f ->].
      intros [= <-]. cbn. eauto.
    + destruct (bool_decide (m ∈ Object_prototype)).
      * intros [= <-]. cbn. eauto.
      * destruct (constant_table !! m) as [v|] eqn:Hc; [|discriminate].
        destruct (constant_table_lookup _ _ Hc) as (n & -> & Hn).
        intros [= <-]. cbn. eauto.
Qed.

Lemma span_head p str c a b : span p str = (String c a, b) -> p c = true.
Proof.
  destruct str as [|d rest]; [discriminate|]. simpl.
  destruct (p d) eqn:Hd; [|discriminate].
  destruct (span p rest). now intros [= <- _ _].
Qed.

Lemma is_minus_digit c rest : is_digit c = true -> is_minus (String c rest) = false.
Proof.
  destruct c as [[] [] [] [] [] [] [] []]; try discriminate; reflexivity.
Qed.

Lemma is_minus_opt_minus text : is_minus (opt_minus text).1 = is_minus text.
Proof.
  destruct text as [|c rest]; [reflexivity|].
  destruct c as [[] [] [] [] [] [] [] []]; reflexivity.
Qed.

Lemma opt_minus_unsigned str : is_minus str = false -> opt_minus str = (EmptyString, str).
Proof.
  destruct str as [|c rest]; [reflexivity|].
  destruct c as [[] [] [] [] [] [] [] []]; try discriminate; reflexivity.
Qed.

Lemma single_character_unsigned str :
  single_character str = None -> is_minus str = false.
Proof.
  destruct str as [|c rest]; [reflexivity|].
  destruct c as [[] [] [] [] [] [] [] []]; try discriminate; reflexivity.
Qed.

Lemma parseFloat_sign text :
  Number.sign_bit (parseFloat text) = Some (is_minus text).
Proof.
  unfold parseFloat. rewrite <- is_minus_opt_minus.
  destruct (opt_minus text) as [sg rest]. destruct (span is_digit rest).
  apply of_ratio_sign.
Qed.

Lemma parseInt_sign text :
  Number.sign_bit (parseInt text) = Some (is_minus text).
Proof.
  unfold parseInt. rewrite <- is_minus_opt_minus.
  destruct (opt_minus text) as [sg rest]. destruct (span is_digit rest).
  apply of_ratio_sign.
Qed.

(** Past the switch, the text matched by [reg_float] or [reg_int] is not
    empty and carries no sign. *)
Lemma reg_float_unsigned str m :
  is_minus str = false -> reg_float str = Some m ->
  is_minus m = false /\ (1 <= String.length m)%nat.
Proof.
  intros Hs. unfold reg_float. rewrite (opt_minus_unsigned _ Hs).
  unfold float_body. destruct (span is_digit str) as [ds rest] eqn:Hds.
  destruct ds as [|c ds].
  - destruct rest as [|d rest']; [discriminate|].
    destruct (ascii_dec d ".") as [->|Hd].
    + destruct (span is_digit rest') as [[|c fs] r]; [discriminate|].
      intros [= <-]. split; [reflexivity|]. rewrite ?length_append; cbn; lia.
    + destruct d as [[] [] [] [] [] [] [] []]; try discriminate.
      now destruct Hd.
  - pose proof (span_head _ _ _ _ _ Hds) as Hc.
    destruct rest as [|d rest']; [discriminate|].
    destruct (ascii_dec d ".") as [->|Hd].
    + destruct (span is_digit rest') as [fs r]. intros [= <-].
      split; [now apply is_minus_digit|]. rewrite ?length_append; cbn; lia.
    + destruct d as [[] [] [] [] [] [] [] []]; try discriminate.
      now destruct Hd.
Qed.

Lemma reg_int_unsigned str m :
  is_minus str = false -> reg_int str = Some m ->
  is_minus m = false /\ (1 <= String.length m)%nat.
Proof.
  intros Hs. unfold reg_int. rewrite (opt_minus_unsigned _ Hs).
  destruct (span is_digit str) as [[|c ds] rest] eqn:Hds; [discriminate|].
  intros [= <-]. split; [|rewrite ?length_append; cbn; lia].
  apply is_minus_digit, (span_head _ _ _ _ _ Hds).
Qed.

Lemma reg_sym_length str m : reg_sym str = Some m -> (1 <= String.length m)%nat.
Proof.
  destruct str as [|c rest]; [discriminate|]. simpl.
  destruct (is_alpha_ c); [|discriminate]. intros [= <-]. cbn. lia.
Qed.

Lemma lex_body_ok str pushed n :
  lex_body str = Normal (pushed, n) ->
  Forall token_ok pushed /\ (1 <= n)%nat.
Proof.
  unfold lex_body. destruct (single_character str) as [r|] eqn:Hsingle.
  { intros [= ->]. apply single_character_spec in Hsingle as [H1 H2].
    simpl in H1, H2. split; [exact H1 | lia]. }
  apply single_character_unsigned in Hsingle.
  destruct (reg_float str) as [m|] eqn:Hfloat.
  { destruct (reg_float_unsigned _ _ Hsingle Hfloat) as [Hm Hlen].
    intros [= <- <-]. split; [|exact Hlen]. repeat constructor.
    eexists; split; [reflexivity|].
    unfold nonnegative. now rewrite parseFloat_sign, Hm. }
  destruct (reg_int str) as [m|] eqn:Hint.
  { destruct (reg_int_unsigned _ _ Hsingle Hint) as [Hm Hlen].
    intros [= <- <-]. split; [|exact Hlen]. repeat constructor.
    eexists; split; [reflexivity|].
    unfold nonnegative. now rewrite parseInt_sign, Hm. }
  destruct (reg_sym str) as [m|] eqn:Hsym; [|discriminate].
  destruct (classify m) as [o| | |] eqn:Hclass; try discriminate.
  intros [= <- <-]. split; [|eapply reg_sym_length, Hsym].
  repeat constructor. eapply classify_ok, Hclass.
Qed.

Lemma classify_completes m :
  (exists o, classify m = Normal o) \/ (exists e, classify m = Throw e).
Proof.
  unfold classify. destruct (_ || _); [eauto|].
  destruct (get function_table m); eauto.
  destruct (get constant_table m); eauto.
Qed.

Lemma lex_body_completes str :
  (exists r, lex_body str = Normal r) \/ (exists e, lex_body str = Throw e).
Proof.
  unfold lex_body.
  destruct (single_character str); [eauto|].
  destruct (reg_float str); [eauto|].
  destruct (reg_int str); [eauto|].
  destruct (reg_sym str) as [m|]; [|eauto].
  destruct (classify_completes m) as [[o ->]|[e ->]]; eauto.
Qed.

Lemma lex_loop_ok fuel exp_str il : forall tokens i toks,
  lex_loop fuel exp_str il tokens i = Normal toks ->
  Forall token_ok tokens -> Forall token_ok toks.
Proof.
  induction fuel as [|fuel IH]; intros tokens i toks; [discriminate|]. simpl.
  destruct (i <? il)%nat; [|now intros [= <-]].
  destruct (lex_body (slice exp_str i)) as [[pushed n]| | |] eqn:Hbody;
    try discriminate.
  intros Hloop Htok. apply (IH _ _ _ Hloop).
  apply Forall_app. split; [exact Htok | eapply lex_body_ok, Hbody].
Qed.

(** The tokenizer terminates: the fuel [lex_scan] provides is enough. *)
Lemma lex_loop_fuel fuel exp_str il : forall tokens i,
  (il - i < fuel)%nat -> lex_loop fuel exp_str il tokens i <> OutOfFuel.
Proof.
  induction fuel as [|fuel IH]; intros tokens i Hfuel; [lia|]. simpl.
  destruct (i <? il)%nat eqn:Hi; [|discriminate].
  apply Nat.ltb_lt in Hi.
  destruct (lex_body_completes (slice exp_str i)) as [[[pushed n] Hb]|[e Hb]];
    rewrite Hb; [|discriminate].
  apply lex_body_ok in Hb as [_ Hn]. apply IH. lia.
Qed.

Lemma lex_loop_not_beyond fuel exp_str il : forall tokens i v,
  lex_loop fuel exp_str il tokens i <> Beyond v.
Proof.
  induction fuel as [|fuel IH]; intros tokens i v; [discriminate|]. simpl.
  destruct (i <? il)%nat; [|discriminate].
  destruct (lex_body_completes (slice exp_str i)) as [[[pushed n] Hb]|[e Hb]];
    rewrite Hb; [apply IH | discriminate].
Qed.

Lemma lex_scan_ok input toks : lex_scan input = Normal toks -> Forall token_ok toks.
Proof. intros Hlex. eapply lex_loop_ok; [exact Hlex | constructor]. Qed.

Lemma lex_scan_completes input :
  (exists toks, lex_scan input = Normal toks) \/ (exists e, lex_scan input = Throw e).
Proof.
  pose proof (lex_loop_fuel (S (String.length input)) input
                (String.length input) [] 0%nat ltac:(lia)) as Hfuel.
  pose proof (lex_loop_not_beyond (S (String.length input)) input
                (String.length input) [] 0%nat) as Hbeyond.
  unfold lex_scan. destruct (lex_loop _ _ _ _ _) as [toks|e|v|]; eauto.
  - now destruct (Hbeyond v).
  - now destruct Hfuel.
Qed.

(** *** The objects that the tokenizer makes *)

Lemma single_character_fresh str r :
  single_character str = Some r -> Forall fresh_token r.1.
Proof.
  destruct str as [|c rest]; [discriminate|].
  destruct c as [[] [] [] [] [] [] [] []]; cbn; intros [= <-]; cbn;
    first [ apply List.Forall_nil | apply List.Forall_cons; [|apply List.Forall_nil] ];
    unfold fresh_token, operators;
    first [ do 6 right; left; reflexivity | do 7 right; reflexivity
          | left; eexists _, _, _, _; split; [|reflexivity]; set_solver ].
Qed.

Lemma classify_outcome m :
  (exists o, classify m = Normal o /\ fresh_token o) \/
  (classify m = Throw (Message ("unknown symbol " ++ m)) /\ unknown_symbol m).
Proof.
  unfold classify, unknown_symbol, fresh_token.
  destruct (String.eqb_spec m "x") as [->|Hx]; [left; eexists; split; [reflexivity|tauto]|].
  destruct (String.eqb_spec m "y") as [->|Hy]; [left; eexists; split; [reflexivity|tauto]|].
  cbn [orb]. unfold get.
  destruct (function_table !! m) as [v|] eqn:Hf.
  { destruct (function_table_lookup _ _ Hf) as [f ->].
    left. eexists. split; [reflexivity|]. right; right; left. eauto. }
  destruct (bool_decide (m ∈ Object_prototype)) eqn:Hproto.
  { apply bool_decide_eq_true in Hproto.
    left. eexists. split; [reflexivity|]. do 3 right. left. eauto. }
  apply bool_decide_eq_false in Hproto.
  destruct (constant_table !! m) as [v|] eqn:Hc.
  { destruct (constant_table_lookup _ _ Hc) as (n & -> & _).
    left. eexists. split; [reflexivity|]. right; left. eauto. }
  right. tauto.
Qed.

Lemma lex_body_outcome str :
  (exists pushed n, lex_body str = Normal (pushed, n) /\ Forall fresh_token pushed) \/
  (exists m, reg_sym str = Some m /\ unknown_symbol m /\
             lex_body str = Throw (Message ("unknown symbol " ++ m))) \/
  (unmatched str /\
   lex_body str = Throw (Message ("Failed in processing input: " ++ str))).
Proof.
  unfold lex_body, unmatched.
  destruct (single_character str) as [[pushed n]|] eqn:Hsingle.
  { left. exists pushed, n. split; [reflexivity|].
    apply (single_character_fresh _ _ Hsingle). }
  destruct (reg_float str) as [m|].
  { left. eexists _, _. split; [reflexivity|].
    apply List.Forall_cons; [|apply List.Forall_nil]. right; left. eauto. }
  destruct (reg_int str) as [m|].
  { left. eexists _, _. split; [reflexivity|].
    apply List.Forall_cons; [|apply List.Forall_nil]. right; left. eauto. }
  destruct (reg_sym str) as [m|]; [|right; right; tauto].
  destruct (classify_outcome m) as [(o & -> & Ho)|[-> Hm]].
  - left. eexists _, _. split; [reflexivity|].
    apply List.Forall_cons; [exact Ho|apply List.Forall_nil].
  - right; left. exists m. tauto.
Qed.

Lemma lex_loop_fresh fuel exp_str il : forall tokens k toks,
  Forall fresh_token tokens ->
  lex_loop fuel exp_str il tokens k = Normal toks -> Forall fresh_token toks.
Proof.
  induction fuel as [|fuel IH]; intros tokens k toks Htok; [discriminate|].
  simpl. destruct (k <? il)%nat; [|now intros [= <-]].
  destruct (lex_body_outcome (slice exp_str k))
    as [(pushed & n & Hb & Hp)|[(m & _ & _ & Hb)|[_ Hb]]];
    rewrite Hb; try discriminate.
  apply IH, Forall_app. auto.
Qed.

(** The tokens that [lex_scan] returns are as it made them. *)
Lemma lex_scan_fresh input toks :
  lex_scan input = Normal toks -> Forall fresh_token toks.
Proof. apply lex_loop_fresh. constructor. Qed.

Lemma lex_loop_throws fuel exp_str il : forall tokens k e,
  lex_loop fuel exp_str il tokens k = Throw e ->
  (exists m, e = Message ("unknown symbol " ++ m)) \/
  (exists str, e = Message ("Failed in processing input: " ++ str)).
Proof.
  induction fuel as [|fuel IH]; intros tokens k e; [discriminate|].
  simpl. destruct (k <? il)%nat; [|discriminate].
  destruct (lex_body_outcome (slice exp_str k))
    as [(pushed & n & Hb & Hp)|[(m & _ & _ & Hb)|[_ Hb]]];
    rewrite Hb; [apply IH|intros [= <-]; eauto..].
Qed.

(** What [lex_scan] throws is one of its two strings. *)
Lemma lex_scan_throws input e :
  lex_scan input = Throw e ->
  (exists m, e = Message ("unknown symbol " ++ m)) \/
  (exists str, e = Message ("Failed in processing input: " ++ str)).
Proof. apply lex_loop_throws. Qed.

(** ** Facts about the parsing engine *)

Lemma bind_Normal {S A B} (m : M S A) (k : A -> M S B) s b s' :
  bind m k s = (Normal b, s') ->
  exists a s1, m s = (Normal a, s1) /\ k a s1 = (Normal b, s').
Proof.
  unfold bind. destruct (m s) as [[a| | |] s1]; try discriminate. eauto.
Qed.

Lemma represents_weaken h lo hi lo' hi' r t :
  represents h lo hi r t -> (lo' <= lo)%nat -> (hi <= hi')%nat ->
  represents h lo' hi' r t.
Proof.
  intros Hrep Hlo Hhi.
  induction Hrep; econstructor; eauto; lia.
Qed.

Lemma represents_frame h h' lo hi r t :
  represents h lo hi r t ->
  (forall k, (lo <= k < hi)%nat -> h' !! k = h !! k) ->
  represents h' lo hi r t.
Proof.
  intros Hrep Hsame.
  induction Hrep; econstructor; eauto; rewrite Hsame; assumption.
Qed.

Lemma token_ok_set_left l o : token_ok o -> token_ok (set_left l o).
Proof. exact id. Qed.

Lemma token_ok_set_right r o : token_ok o -> token_ok (set_right r o).
Proof. exact id. Qed.

Lemma token_ok_set_type ty o str bp ra au :
  made_by o = operator_token str bp ra au ->
  token_ok o -> token_ok (set_type ty o).
Proof. unfold token_ok. simpl. now intros ->. Qed.

Lemma operators_nonneg str bp ra au :
  (str, bp, ra, au) ∈ operators ->
  str ∈ ["+"; "-"; "*"; "/"; "^"] /\ 0 <= bp - ra /\
  (au = 1 -> str ∈ ["+"; "-"]).
Proof.
  unfold operators. intros Hin.
  repeat (apply elem_of_cons in Hin as [Hin|Hin];
          [injection Hin as -> -> -> ->; split; [set_solver|split; [lia|intros; set_solver]]|]).
  now apply elem_of_nil in Hin.
Qed.

Lemma assign_alter t f s :
  assign t f s = (Normal tt, {| tokens := alter f t (tokens s); i := i s |}).
Proof. reflexivity. Qed.

Tactic Notation "bind_inv" hyp(H) "as" ident(a) ident(s1) ident(H1) :=
  apply bind_Normal in H as (a & s1 & H1 & H).

Lemma nud_parsed e t s r s' :
  expression_spec e -> ready s -> i s = S t ->
  nud e t s = (Normal r, s') -> parsed t t s s' r.
Proof.
  intros He [Hok Hi] Ht Hnud. unfold nud in Hnud.
  bind_inv Hnud as o s0 Hderef. unfold deref in Hderef.
  destruct (tokens s !! t) as [o'|] eqn:Hlook; [|discriminate].
  injection Hderef as -> <-.
  pose proof (Forall_lookup_1 _ _ _ _ Hok Hlook) as Ho. unfold token_ok in Ho.
  destruct (made_by o) as [str bp ra au| | | | |] eqn:Hmade.
  - (* a prefix operator *)
    destruct (au =? 1) eqn:Hau; [simpl in Hnud|discriminate].
    apply Z.eqb_eq in Hau. subst au.
    bind_inv Hnud as l s1 Hexp. apply (He _ _ _ _ (conj Hok Hi)) in Hexp
      as (Hlen & Hle & Hhi & Hok1 & Hframe & tl & Hrep).
    bind_inv Hnud as u2 s2 Hs2. injection Hs2 as _ <-.
    bind_inv Hnud as u3 s3 Hs3. injection Hs3 as _ <-.
    injection Hnud as <- <-. simpl.
    assert (Hlook1 : tokens s1 !! t = Some o)
      by (rewrite Hframe; [exact Hlook | lia]).
    repeat split; simpl.
    + now rewrite !length_alter.
    + lia.
    + exact Hhi.
    + apply Forall_alter; [apply Forall_alter; [exact Hok1|]|].
      * intros x _. apply token_ok_set_left.
      * intros x Hx. rewrite list_lookup_alter_eq, Hlook1 in Hx.
        injection Hx as <-. intros _.
        eapply token_ok_set_type; [exact Hmade|].
        unfold token_ok. simpl. now rewrite Hmade.
    + intros k Hk. rewrite !list_lookup_alter_ne by lia. apply Hframe. lia.
    + exists (Unary str tl).
      apply (rep_unary _ _ _ t (set_type ("op_u" ++ str) (set_left l o)));
        simpl; try reflexivity.
      * lia.
      * now rewrite !list_lookup_alter_eq, Hlook1.
      * now apply operators_nonneg in Ho as (_ & _ & Hu); auto.
      * apply represents_weaken with (lo := S t) (hi := i s1); try lia.
        eapply represents_frame; [rewrite <- Ht; exact Hrep|].
        intros k Hk. rewrite !list_lookup_alter_ne by lia. reflexivity.
  - (* a literal *)
    injection Hnud as <- <-. destruct Ho as (Hty & n & Hval & _).
    repeat split; auto; try lia. exists (Literal n).
    apply (rep_literal _ _ _ t o); auto. lia.
  - (* a function name *)
    bind_inv Hnud as l s1 Hexp. apply (He _ _ _ _ (conj Hok Hi)) in Hexp
      as (Hlen & Hle & Hhi & Hok1 & Hframe & tl & Hrep).
    bind_inv Hnud as u2 s2 Hs2. injection Hs2 as _ <-.
    injection Hnud as <- <-. simpl.
    assert (Hlook1 : tokens s1 !! t = Some o)
      by (rewrite Hframe; [exact Hlook | lia]).
    destruct Ho as [Hty Hval].
    repeat split; simpl.
    + now rewrite !length_alter.
    + lia.
    + exact Hhi.
    + apply Forall_alter; [exact Hok1|]. intros x _. apply token_ok_set_left.
    + intros k Hk. rewrite !list_lookup_alter_ne by lia. apply Hframe. lia.
    + exists (Apply (value o) tl).
      apply (rep_apply _ _ _ t (set_left l o)); simpl; auto.
      * lia.
      * now rewrite !list_lookup_alter_eq, Hlook1.
      * apply represents_weaken with (lo := S t) (hi := i s1); try lia.
        eapply represents_frame; [rewrite <- Ht; exact Hrep|].
        intros k Hk. rewrite !list_lookup_alter_ne by lia. reflexivity.
  - (* a variable *)
    injection Hnud as <- <-. destruct Ho as (Hty & Hval).
    repeat split; auto; try lia.
    exists (Variable_ref (match value o with Str name => name | _ => EmptyString end)).
    apply (rep_variable _ _ _ t o); auto; [lia|]. now destruct Hval as [-> | ->].
  - (* a right parenthesis *)
    discriminate.
  - (* a left parenthesis *)
    bind_inv Hnud as e0 s1 Hexp. apply (He _ _ _ _ (conj Hok Hi)) in Hexp
      as (Hlen & Hle & Hhi & Hok1 & Hframe & t0 & Hrep).
    destruct (bool_decide (token_type s1 = Some ")")) eqn:Hclose;
      [simpl in Hnud|discriminate].
    apply bool_decide_eq_true in Hclose. unfold token_type, token in Hclose.
    destruct (at_end s1) eqn:Hend; [discriminate|].
    apply Nat.leb_gt in Hend.
    injection Hnud as <- <-. simpl.
    repeat split; simpl; auto; try lia.
    + intros k Hk. apply Hframe. lia.
    + exists t0. eapply represents_weaken; [exact Hrep| |]; lia.
Qed.

Lemma led_parsed e t l s r s' lo tl :
  expression_spec e -> ready s -> i s = S t -> (lo <= t)%nat ->
  represents (tokens s) lo t l tl ->
  led e t l s = (Normal r, s') -> parsed t lo s s' r.
Proof.
  intros He [Hok Hi] Ht Hlo Hl Hled. unfold led in Hled.
  bind_inv Hled as o s0 Hderef. unfold deref in Hderef.
  destruct (tokens s !! t) as [o'|] eqn:Hlook; [|discriminate].
  injection Hderef as -> <-.
  pose proof (Forall_lookup_1 _ _ _ _ Hok Hlook) as Ho. unfold token_ok in Ho.
  destruct (made_by o) as [str bp ra au| | | | |] eqn:Hmade; try discriminate.
  bind_inv Hled as u1 s1 Hs1. injection Hs1 as _ <-.
  bind_inv Hled as r0 s2 Hexp.
  apply He in Hexp as (Hlen & Hle & Hhi & Hok2 & Hframe & tr & Hrep).
  2:{ split; simpl; [|now rewrite length_alter].
      apply Forall_alter; [exact Hok|]. intros x _. apply token_ok_set_left. }
  simpl in Hlen, Hle, Hhi, Hframe, Hrep.
  rewrite length_alter in Hlen, Hhi.
  bind_inv Hled as u3 s3 Hs3. injection Hs3 as _ <-.
  bind_inv Hled as u4 s4 Hs4. injection Hs4 as _ <-.
  injection Hled as <- <-. simpl.
  assert (Hlook2 : tokens s2 !! t = Some (set_left l o)).
  { rewrite Hframe by lia. now rewrite list_lookup_alter_eq, Hlook. }
  repeat split; simpl.
  - now rewrite !length_alter.
  - lia.
  - exact Hhi.
  - apply Forall_alter; [apply Forall_alter; [exact Hok2|]|].
    + intros x _. apply token_ok_set_right.
    + intros x Hx. rewrite list_lookup_alter_eq, Hlook2 in Hx.
      injection Hx as <-. intros _.
      eapply token_ok_set_type; [exact Hmade|].
      unfold token_ok. simpl. now rewrite Hmade.
  - intros k Hk. rewrite !list_lookup_alter_ne by lia.
    rewrite Hframe by lia. now rewrite list_lookup_alter_ne by lia.
  - exists (Binary str tl tr).
    apply (rep_binary _ _ _ t
             (set_type ("op_b" ++ str) (set_right r0 (set_left l o))));
      simpl; try reflexivity.
    + lia.
    + now rewrite !list_lookup_alter_eq, Hlook2.
    + now apply operators_nonneg in Ho as (Hin & _ & _).
    + apply represents_weaken with (lo := lo) (hi := t); try lia.
      eapply represents_frame; [exact Hl|].
      intros k Hk. rewrite !list_lookup_alter_ne by lia.
      rewrite Hframe by lia. now rewrite list_lookup_alter_ne by lia.
    + apply represents_weaken with (lo := S t) (hi := i s2); try lia.
      eapply represents_frame; [rewrite <- Ht; exact Hrep|].
      intros k Hk. rewrite !list_lookup_alter_ne by lia. reflexivity.
Qed.

Lemma parsed_trans w lo' lo s1 s2 s3 a r :
  parsed w lo' s1 s2 a -> parsed (i s2) lo s2 s3 r -> (w <= i s2)%nat ->
  parsed w lo s1 s3 r.
Proof.
  intros (Hlen1 & Hle1 & Hhi1 & _ & Hframe1 & _)
         (Hlen2 & Hle2 & Hhi2 & Hok & Hframe2 & Hrep) Hw.
  repeat split; try congruence; try lia; try assumption.
  intros k Hk. rewrite Hframe2 by lia. apply Hframe1. lia.
Qed.

Lemma parsed_advance w lo s s' r :
  parsed w lo {| tokens := tokens s; i := S (i s) |} s' r -> parsed w lo s s' r.
Proof.
  intros (Hlen & Hle & Hhi & Hok & Hframe & Hrep). simpl in *.
  repeat split; auto. lia.
Qed.

Lemma expression_parsed_both fuel :
  expression_spec (expression fuel) /\
  (forall rbp l s r s' lo tl,
     ready s -> (lo <= i s)%nat -> represents (tokens s) lo (i s) l tl ->
     expression_loop fuel rbp l s = (Normal r, s') -> parsed (i s) lo s s' r).
Proof.
  induction fuel as [|fuel [IHe IHl]]; [split; intros; discriminate|]. split.
  - intros rbp s r s' [Hok Hi] Hexp. simpl in Hexp.
    destruct (at_end s) eqn:Hend.
    { injection Hexp as <- <-. repeat split; auto. exists Missing. constructor. }
    apply Nat.leb_gt in Hend.
    bind_inv Hexp as u1 s1 Hs1. injection Hs1 as _ <-.
    bind_inv Hexp as l s2 Hnud.
    apply nud_parsed in Hnud as Hp; [|exact IHe|split; simpl; [exact Hok|lia]|reflexivity].
    pose proof Hp as (Hlen & Hle & Hhi & Hok2 & _ & tl & Hrep). simpl in *.
    apply parsed_advance.
    eapply parsed_trans; [exact Hp| |lia].
    eapply IHl; [split; [exact Hok2|lia]|lia|exact Hrep|exact Hexp].
  - intros rbp l s r s' lo tl [Hok Hi] Hlo Hl Hloop. simpl in Hloop.
    destruct (binds_tighter rbp (token_lbp s)).
    2:{ injection Hloop as <- <-. repeat split; eauto. }
    unfold token in Hloop. destruct (at_end s) eqn:Hend.
    { bind_inv Hloop as u1 s1 Hs1. discriminate. }
    apply Nat.leb_gt in Hend.
    bind_inv Hloop as u1 s1 Hs1. injection Hs1 as _ <-.
    bind_inv Hloop as l' s2 Hled.
    eapply led_parsed in Hled as Hp;
      [|exact IHe|split; simpl; [exact Hok|lia]|reflexivity|exact Hlo|exact Hl].
    pose proof Hp as (Hlen & Hle & Hhi & Hok2 & _ & t2 & Hrep). simpl in *.
    apply parsed_advance.
    eapply parsed_trans; [exact Hp| |lia].
    eapply IHl; [split; [exact Hok2|lia]|lia|exact Hrep|exact Hloop].
Qed.

Lemma bind_completes {S A B} (m : M S A) (k : A -> M S B) s :
  completes (m s) ->
  (forall a s1, m s = (Normal a, s1) -> completes (k a s1)) ->
  completes (bind m k s).
Proof.
  unfold bind, completes. destruct (m s) as [[a| | |] s1]; simpl;
    intros Hm Hk; try exact Hm.
  apply (Hk a s1 eq_refl).
Qed.

Lemma nud_completes e n t s :
  expression_total e n -> ready s -> (remaining s < n)%nat ->
  completes (nud e t s).
Proof.
  intros He Hs Hn. unfold nud. apply bind_completes.
  { unfold deref. now destruct (tokens s !! t). }
  intros o s0 Hderef. unfold deref in Hderef.
  destruct (tokens s !! t); [|discriminate]. injection Hderef as _ <-.
  destruct (made_by o) as [str bp ra au| | | | |]; try exact I.
  - destruct (negb (au =? 1)); [exact I|].
    apply bind_completes; [now apply He|]. intros; exact I.
  - apply bind_completes; [now apply He|]. intros; exact I.
  - apply bind_completes; [now apply He|]. intros e0 s1 _.
    destruct (negb _); exact I.
Qed.

Lemma led_completes e n t l s :
  expression_total e n -> ready s -> (remaining s < n)%nat ->
  completes (led e t l s).
Proof.
  intros He [Hok Hi] Hn. unfold led. apply bind_completes.
  { unfold deref. now destruct (tokens s !! t). }
  intros o s0 Hderef. unfold deref in Hderef.
  destruct (tokens s !! t); [|discriminate]. injection Hderef as _ <-.
  destruct (made_by o) as [str bp ra au| | | | |]; try exact I.
  apply bind_completes; [exact I|]. intros u1 s1 [= _ <-].
  apply bind_completes; [|intros; exact I].
  apply He.
  - split; simpl; [|now rewrite length_alter].
    apply Forall_alter; [exact Hok|]. intros x _. apply token_ok_set_left.
  - unfold remaining in *. simpl. now rewrite length_alter.
Qed.

(** The parsing engine terminates: fuel above the number of tokens left
    is never used up. *)
Lemma expression_completes_both fuel :
  expression_total (expression fuel) fuel /\
  (forall rbp l s lo tl,
     ready s -> (lo <= i s)%nat -> represents (tokens s) lo (i s) l tl ->
     (remaining s < fuel)%nat -> completes (expression_loop fuel rbp l s)).
Proof.
  induction fuel as [|fuel [IHe IHl]];
    [unfold expression_total; split; intros; lia|].
  destruct (expression_parsed_both fuel) as [Hspec _]. split.
  - intros rbp s [Hok Hi] Hn. simpl.
    destruct (at_end s) eqn:Hend; [exact I|]. apply Nat.leb_gt in Hend.
    apply bind_completes; [exact I|]. intros u1 s1 [= _ <-].
    assert (Hready : ready {| tokens := tokens s; i := S (i s) |})
      by (split; simpl; [exact Hok|lia]).
    assert (Hrem : (remaining {| tokens := tokens s; i := S (i s) |} < fuel)%nat)
      by (unfold remaining in *; simpl; lia).
    apply bind_completes; [now apply (nud_completes _ fuel)|].
    intros l s2 Hnud.
    apply nud_parsed in Hnud as (Hlen & Hle & Hhi & Hok2 & _ & tl & Hrep);
      [|exact Hspec|exact Hready|reflexivity].
    simpl in *. apply (IHl _ _ _ (i s) tl); auto; [split; [auto|lia]|lia|].
    unfold remaining in *. simpl in *. lia.
  - intros rbp l s lo tl [Hok Hi] Hlo Hl Hn. simpl.
    destruct (binds_tighter rbp (token_lbp s)); [|exact I].
    unfold token. destruct (at_end s) eqn:Hend; [exact I|].
    apply Nat.leb_gt in Hend.
    apply bind_completes; [exact I|]. intros u1 s1 [= _ <-].
    assert (Hready : ready {| tokens := tokens s; i := S (i s) |})
      by (split; simpl; [exact Hok|lia]).
    assert (Hrem : (remaining {| tokens := tokens s; i := S (i s) |} < fuel)%nat)
      by (unfold remaining in *; simpl; lia).
    apply bind_completes; [now apply (led_completes _ fuel)|].
    intros l' s2 Hled.
    eapply led_parsed in Hled as (Hlen & Hle & Hhi & Hok2 & _ & t2 & Hrep);
      [|exact Hspec|exact Hready|reflexivity|exact Hlo|exact Hl].
    simpl in *. apply (IHl _ _ _ lo t2); auto; [split; [auto|lia]|lia|].
    unfold remaining in *. simpl in *. lia.
Qed.

Lemma create_parse_tree_parsed toks r s' :
  Forall token_ok toks -> create_parse_tree toks = (Normal r, s') ->
  Forall token_ok (tokens s') /\
  exists t, represents (tokens s') 0 (length (tokens s')) r t.
Proof.
  intros Hok Hparse. unfold create_parse_tree in Hparse.
  apply (proj1 (expression_parsed_both _)) in Hparse
    as (Hlen & Hle & Hhi & Hok' & _ & t & Hrep); [|split; simpl; [exact Hok|lia]].
  simpl in *. split; [exact Hok'|]. exists t.
  eapply represents_weaken; [exact Hrep| |]; lia.
Qed.

Lemma create_parse_tree_completes toks :
  Forall token_ok toks -> completes (create_parse_tree toks).
Proof.
  intros Hok. apply (proj1 (expression_completes_both _)).
  - split; simpl; [exact Hok|lia].
  - unfold remaining. simpl. lia.
Qed.

(** [parse] returns or throws, for every input. *)
Lemma parse_completes input :
  (exists root h, parse input = Normal (root, h)) \/
  (exists e, parse input = Throw e).
Proof.
  unfold parse.
  destruct (lex_scan_completes input) as [[toks Hlex]|[e Hlex]]; rewrite Hlex;
    [|eauto].
  pose proof (create_parse_tree_completes toks (lex_scan_ok _ _ Hlex)) as Hc.
  unfold completes in Hc.
  destruct (create_parse_tree toks) as [[r| | |] s']; simpl in Hc;
    try contradiction; eauto.
Qed.

(** What [parse] returns is the root of a tree held by the heap it
    returns. *)
Lemma parse_represents input root h :
  parse input = Normal (root, h) ->
  Forall token_ok h /\ exists t, represents h 0 (length h) root t.
Proof.
  unfold parse. destruct (lex_scan input) as [toks| | |] eqn:Hlex;
    try discriminate.
  destruct (create_parse_tree toks) as [[r| | |] s'] eqn:Hparse;
    try discriminate.
  intros [= <- <-].
  eapply create_parse_tree_parsed; [eapply lex_scan_ok, Hlex | exact Hparse].
Qed.

(** *** What parsing keeps, and the layout of the tree *)

Lemma kept_refl o : kept o o.
Proof. unfold kept. repeat split; auto. now destruct (made_by o). Qed.

Lemma kept_trans o1 o2 o3 : kept o1 o2 -> kept o2 o3 -> kept o1 o3.
Proof.
  unfold kept. intros (Hm & Hv & Hl & H12) (Hm' & Hv' & Hl' & H23).
  rewrite Hm in H23. repeat split; try congruence.
  destruct (made_by o1); try congruence; destruct H12, H23; split; congruence.
Qed.

Lemma Forall2_kept_refl h : Forall2 kept h h.
Proof. apply Forall_Forall2_diag, Forall_forall. intros; apply kept_refl. Qed.

Lemma Forall2_kept_trans h1 h2 h3 :
  Forall2 kept h1 h2 -> Forall2 kept h2 h3 -> Forall2 kept h1 h3.
Proof. intros H12 H23. eapply Forall2_trans; eauto using kept_trans. Qed.

Lemma spans_weaken h lo hi r t :
  spans h lo hi r t -> forall lo' hi', (lo' <= lo)%nat -> (hi <= hi')%nat ->
  spans h lo' hi' r t.
Proof.
  induction 1; intros lo' hi' Hlo Hhi; [constructor; lia|..].
  all: econstructor; eauto;
    first [ lia | apply IHspans; lia | apply IHspans1; lia
          | apply IHspans2; lia ].
Qed.

Lemma spans_frame h h' lo hi r t :
  spans h lo hi r t ->
  (forall k, (lo <= k < hi)%nat -> h' !! k = h !! k) ->
  spans h' lo hi r t.
Proof.
  induction 1; intros Hsame; [now constructor|..].
  all: econstructor; eauto;
    first [ now rewrite Hsame
          | apply IHspans; intros; apply Hsame; lia
          | apply IHspans1; intros; apply Hsame; lia
          | apply IHspans2; intros; apply Hsame; lia ].
Qed.

Lemma spans_represents h lo hi r t :
  spans h lo hi r t -> represents h lo hi r t.
Proof.
  induction 1; [constructor|..].
  all: econstructor; eauto; eapply represents_weaken; eauto; lia.
Qed.

Lemma spans_range h lo hi r t : spans h lo hi r t -> (lo <= hi)%nat.
Proof. destruct 1; lia. Qed.

Lemma kept_alter h h' t f :
  Forall2 kept h h' ->
  (forall o o', h !! t = Some o -> h' !! t = Some o' -> kept o o' -> kept o (f o')) ->
  Forall2 kept h (alter f t h').
Proof. intros Hk Hf. apply Forall2_alter_r; auto. Qed.

Lemma nud_strict e t s r s' :
  expression_spec e -> strict_spec e -> ready s -> i s = S t ->
  nud e t s = (Normal r, s') ->
  Forall2 kept (tokens s) (tokens s') /\
  (exists t', spans (tokens s') t (i s') r t') /\ r <> None.
Proof.
  intros He Hs [Hok Hi] Ht Hnud. unfold nud in Hnud.
  bind_inv Hnud as o s0 Hderef. unfold deref in Hderef.
  destruct (tokens s !! t) as [o'|] eqn:Hlook; [|discriminate].
  injection Hderef as -> <-.
  pose proof (Forall_lookup_1 _ _ _ _ Hok Hlook) as Ho. unfold token_ok in Ho.
  destruct (made_by o) as [str bp ra au| | | | |] eqn:Hmade.
  - destruct (au =? 1) eqn:Hau; [simpl in Hnud|discriminate].
    apply Z.eqb_eq in Hau. subst au.
    bind_inv Hnud as l s1 Hexp.
    pose proof (He _ _ _ _ (conj Hok Hi) Hexp)
      as (Hlen & Hle & Hhi & Hok1 & Hframe & _).
    apply (Hs _ _ _ _ (conj Hok Hi)) in Hexp as (Hkept & [tl Hspan] & _).
    bind_inv Hnud as u2 s2 Hs2. injection Hs2 as _ <-.
    bind_inv Hnud as u3 s3 Hs3. injection Hs3 as _ <-.
    injection Hnud as <- <-. simpl.
    assert (Hlook1 : tokens s1 !! t = Some o)
      by (rewrite Hframe; [exact Hlook | lia]).
    split; [|split; [|discriminate]].
    + apply kept_alter; [apply kept_alter; [exact Hkept|]|].
      * intros x x' Hx _ Hxx'. rewrite Hlook in Hx. injection Hx as <-.
        unfold kept in *. simpl. now rewrite Hmade in *.
      * intros x x' Hx _ Hxx'. rewrite Hlook in Hx. injection Hx as <-.
        unfold kept in *. simpl. now rewrite Hmade in *.
    + exists (Unary str tl).
      apply (span_unary _ _ _ t (set_type ("op_u" ++ str) (set_left l o)));
        simpl; try reflexivity.
      * lia.
      * now rewrite !list_lookup_alter_eq, Hlook1.
      * now apply operators_nonneg in Ho as (_ & _ & Hu); auto.
      * eapply spans_frame; [rewrite <- Ht; exact Hspan|].
        intros k Hk. rewrite !list_lookup_alter_ne by lia. reflexivity.
  - injection Hnud as <- <-. destruct Ho as (Hty & n & Hval & _).
    split; [apply Forall2_kept_refl|]. split; [|discriminate].
    exists (Literal n). apply (span_literal _ _ _ t o); auto. lia.
  - bind_inv Hnud as l s1 Hexp.
    pose proof (He _ _ _ _ (conj Hok Hi) Hexp)
      as (Hlen & Hle & Hhi & Hok1 & Hframe & _).
    apply (Hs _ _ _ _ (conj Hok Hi)) in Hexp as (Hkept & [tl Hspan] & _).
    bind_inv Hnud as u2 s2 Hs2. injection Hs2 as _ <-.
    injection Hnud as <- <-. simpl.
    assert (Hlook1 : tokens s1 !! t = Some o)
      by (rewrite Hframe; [exact Hlook | lia]).
    destruct Ho as [Hty Hval].
    split; [|split; [|discriminate]].
    + apply kept_alter; [exact Hkept|].
      intros x x' Hx _ Hxx'. rewrite Hlook in Hx. injection Hx as <-.
      unfold kept in *. simpl. rewrite Hmade in *. tauto.
    + exists (Apply (value o) tl).
      apply (span_apply _ _ _ t (set_left l o)); simpl; auto.
      * lia.
      * now rewrite !list_lookup_alter_eq, Hlook1.
      * eapply spans_frame; [rewrite <- Ht; exact Hspan|].
        intros k Hk. rewrite !list_lookup_alter_ne by lia. reflexivity.
  - injection Hnud as <- <-. destruct Ho as (Hty & Hval).
    split; [apply Forall2_kept_refl|]. split; [|discriminate].
    exists (Variable_ref (match value o with Str name => name | _ => EmptyString end)).
    apply (span_variable _ _ _ t o); auto; [lia|]. now destruct Hval as [-> | ->].
  - discriminate.
  - bind_inv Hnud as e0 s1 Hexp.
    pose proof (He _ _ _ _ (conj Hok Hi) Hexp)
      as (Hlen & Hle & Hhi & Hok1 & Hframe & _).
    apply (Hs _ _ _ _ (conj Hok Hi)) in Hexp as (Hkept & [t0 Hspan] & Hnone).
    destruct (bool_decide (token_type s1 = Some ")")) eqn:Hclose;
      [simpl in Hnud|discriminate].
    apply bool_decide_eq_true in Hclose. unfold token_type, token in Hclose.
    destruct (at_end s1) eqn:Hend; [discriminate|].
    injection Hnud as <- <-. simpl.
    split; [exact Hkept|]. split.
    + exists t0. eapply spans_weaken; [exact Hspan| |]; lia.
    + intros ->. destruct (Hnone eq_refl) as [-> Hend']. congruence.
Qed.

Lemma led_strict e t l s r s' lo tl :
  expression_spec e -> strict_spec e -> ready s -> i s = S t -> (lo <= t)%nat ->
  spans (tokens s) lo t l tl ->
  led e t l s = (Normal r, s') ->
  Forall2 kept (tokens s) (tokens s') /\
  (exists t', spans (tokens s') lo (i s') r t') /\ r <> None.
Proof.
  intros He Hs [Hok Hi] Ht Hlo Hl Hled. unfold led in Hled.
  bind_inv Hled as o s0 Hderef. unfold deref in Hderef.
  destruct (tokens s !! t) as [o'|] eqn:Hlook; [|discriminate].
  injection Hderef as -> <-.
  pose proof (Forall_lookup_1 _ _ _ _ Hok Hlook) as Ho. unfold token_ok in Ho.
  destruct (made_by o) as [str bp ra au| | | | |] eqn:Hmade; try discriminate.
  bind_inv Hled as u1 s1 Hs1. injection Hs1 as _ <-.
  bind_inv Hled as r0 s2 Hexp.
  assert (Hready : ready {| tokens := alter (set_left l) t (tokens s); i := i s |}).
  { split; simpl; [|now rewrite length_alter].
    apply Forall_alter; [exact Hok|]. intros x _. apply token_ok_set_left. }
  pose proof (He _ _ _ _ Hready Hexp) as (Hlen & Hle & Hhi & Hok2 & Hframe & _).
  apply (Hs _ _ _ _ Hready) in Hexp as (Hkept & [tr Hspan] & _).
  simpl in Hlen, Hle, Hhi, Hframe, Hspan, Hkept.
  rewrite length_alter in Hlen, Hhi.
  bind_inv Hled as u3 s3 Hs3. injection Hs3 as _ <-.
  bind_inv Hled as u4 s4 Hs4. injection Hs4 as _ <-.
  injection Hled as <- <-. simpl.
  assert (Hlook2 : tokens s2 !! t = Some (set_left l o)).
  { rewrite Hframe by lia. now rewrite list_lookup_alter_eq, Hlook. }
  assert (Hkept1 : Forall2 kept (tokens s) (alter (set_left l) t (tokens s))).
  { apply kept_alter; [apply Forall2_kept_refl|].
    intros x x' Hx _ Hxx'. rewrite Hlook in Hx. injection Hx as <-.
    unfold kept in *. simpl. now rewrite Hmade in *. }
  split; [|split; [|discriminate]].
  - apply kept_alter; [apply kept_alter;
                        [exact (Forall2_kept_trans _ _ _ Hkept1 Hkept)|]|];
      intros x x' Hx _ Hxx'; rewrite Hlook in Hx; injection Hx as <-;
      unfold kept in *; simpl; now rewrite Hmade in *.
  - exists (Binary str tl tr).
    apply (span_binary _ _ _ t
             (set_type ("op_b" ++ str) (set_right r0 (set_left l o))));
      simpl; try reflexivity.
    + lia.
    + now rewrite !list_lookup_alter_eq, Hlook2.
    + now apply operators_nonneg in Ho as (Hin & _ & _).
    + eapply spans_frame; [exact Hl|].
      intros k Hk. rewrite !list_lookup_alter_ne by lia.
      rewrite Hframe by lia. now rewrite list_lookup_alter_ne by lia.
    + eapply spans_frame; [rewrite <- Ht; exact Hspan|].
      intros k Hk. rewrite !list_lookup_alter_ne by lia. reflexivity.
Qed.

Lemma expression_strict_both fuel :
  strict_spec (expression fuel) /\
  (forall rbp l s r s' lo tl,
     ready s -> (lo <= i s)%nat -> l <> None ->
     spans (tokens s) lo (i s) l tl ->
     expression_loop fuel rbp l s = (Normal r, s') ->
     Forall2 kept (tokens s) (tokens s') /\
     (exists t, spans (tokens s') lo (i s') r t) /\ r <> None).
Proof.
  induction fuel as [|fuel [IHe IHl]]; [split; intros; discriminate|].
  destruct (expression_parsed_both fuel) as [Hspec _]. split.
  - intros rbp s r s' [Hok Hi] Hexp. simpl in Hexp.
    destruct (at_end s) eqn:Hend.
    { injection Hexp as <- <-. split; [apply Forall2_kept_refl|].
      split; [exists Missing; constructor; lia | auto]. }
    apply Nat.leb_gt in Hend.
    bind_inv Hexp as u1 s1 Hs1. injection Hs1 as _ <-.
    bind_inv Hexp as l s2 Hnud.
    assert (Hready : ready {| tokens := tokens s; i := S (i s) |})
      by (split; simpl; [exact Hok|lia]).
    pose proof (nud_parsed _ _ _ _ _ Hspec Hready eq_refl Hnud)
      as (Hlen & Hle & Hhi & Hok2 & _ & _).
    apply nud_strict in Hnud as (Hkept & [tl Hspan] & Hl); auto.
    simpl in *.
    eapply (IHl _ _ _ _ _ (i s)) in Hexp as (Hkept' & Ht & Hr);
      [|split; [exact Hok2|lia]|lia|exact Hl|exact Hspan].
    split; [exact (Forall2_kept_trans _ _ _ Hkept Hkept')|].
    split; [exact Ht|]. intros ->. now destruct Hr.
  - intros rbp l s r s' lo tl [Hok Hi] Hlo Hnone Hl Hloop. simpl in Hloop.
    destruct (binds_tighter rbp (token_lbp s)).
    2:{ injection Hloop as <- <-. split; [apply Forall2_kept_refl|]. eauto. }
    unfold token in Hloop. destruct (at_end s) eqn:Hend.
    { bind_inv Hloop as u1 s1 Hs1. discriminate. }
    apply Nat.leb_gt in Hend.
    bind_inv Hloop as u1 s1 Hs1. injection Hs1 as _ <-.
    bind_inv Hloop as l' s2 Hled.
    assert (Hready : ready {| tokens := tokens s; i := S (i s) |})
      by (split; simpl; [exact Hok|lia]).
    pose proof (led_parsed _ _ _ _ _ _ _ _ Hspec Hready eq_refl Hlo
                  (spans_represents _ _ _ _ _ Hl) Hled)
      as (Hlen & Hle & Hhi & Hok2 & _ & _).
    eapply led_strict in Hled as (Hkept & [t2 Hspan] & Hl');
      [|exact Hspec|exact IHe|exact Hready|reflexivity|exact Hlo|exact Hl].
    simpl in *.
    eapply (IHl _ _ _ _ _ lo) in Hloop as (Hkept' & Ht & Hr);
      [|split; [exact Hok2|lia]|lia|exact Hl'|exact Hspan].
    split; [exact (Forall2_kept_trans _ _ _ Hkept Hkept')|]. auto.
Qed.

Lemma create_parse_tree_strict toks r s' :
  Forall token_ok toks -> create_parse_tree toks = (Normal r, s') ->
  Forall2 kept toks (tokens s') /\
  (exists t, spans (tokens s') 0 (length (tokens s')) r t) /\
  (r = None -> toks = []).
Proof.
  intros Hok Hparse. unfold create_parse_tree in Hparse.
  assert (Hready : ready {| tokens := toks; i := 0 |})
    by (split; simpl; [exact Hok|lia]).
  pose proof (proj1 (expression_parsed_both _) _ _ _ _ Hready Hparse)
    as (Hlen & Hle & Hhi & _).
  apply (proj1 (expression_strict_both _)) in Hparse
    as (Hkept & [t Hspan] & Hnone); [|exact Hready].
  simpl in *. split; [exact Hkept|]. split.
  - exists t. eapply spans_weaken; [exact Hspan| |]; lia.
  - intros Hr. destruct (Hnone Hr) as [_ Hend]. unfold at_end in Hend.
    simpl in Hend. apply Nat.leb_le in Hend. destruct toks; [reflexivity|].
    simpl in Hend. lia.
Qed.

Lemma lexed_kept s h' :
  Forall (fun o => lbp o = lbp_of (made_by o)) (tokens s) ->
  Forall2 kept (tokens s) h' ->
  Forall (fun o => lbp o = lbp_of (made_by o)) h'.
Proof.
  intros Hl Hk. apply Forall_lookup. intros k o' Hlook.
  destruct (Forall2_lookup_r _ _ _ _ _ Hk Hlook) as (o & Ho & Hm & _ & Hlbp & _).
  rewrite Hlbp, Hm. eapply (Forall_lookup_1 _ _ _ _ Hl Ho).
Qed.

Lemma fresh_token_lbp o : fresh_token o -> lbp o = lbp_of (made_by o).
Proof.
  intros [(str & bp & ra & au & _ & ->)|[[n ->]|[[f ->]|[(name & _ & ->)
          |[->|[->|[->| ->]]]]]]]; reflexivity.
Qed.

(** *** Where an operand is missing *)

Lemma takes_operand_made_by o o' :
  made_by o' = made_by o -> takes_operand o -> takes_operand o'.
Proof. unfold takes_operand. now intros ->. Qed.

Lemma open_ended_kept h h' :
  Forall2 kept h h' -> open_ended h <-> open_ended h'.
Proof.
  intros Hk. unfold open_ended. rewrite !last_lookup.
  rewrite <- (Forall2_length _ _ _ Hk).
  split; intros (o & Hlook & Ho).
  - destruct (Forall2_lookup_l _ _ _ _ _ Hk Hlook) as (o' & Hlook' & Hm & _).
    exists o'. split; [exact Hlook'|]. now apply (takes_operand_made_by o).
  - destruct (Forall2_lookup_r _ _ _ _ _ Hk Hlook) as (o' & Hlook' & Hm & _).
    exists o'. split; [exact Hlook'|]. now apply (takes_operand_made_by o).
Qed.

Lemma open_ended_at h t o :
  length h = S t -> h !! t = Some o -> (open_ended h <-> takes_operand o).
Proof.
  intros Hlen Hlook. unfold open_ended. rewrite last_lookup, Hlen. simpl.
  rewrite Hlook. split; [now intros (o' & [= <-] & Ho)|eauto].
Qed.

Lemma operators_positive str bp ra au :
  (str, bp, ra, au) ∈ operators -> 0 < bp.
Proof.
  unfold operators. intros Hin.
  repeat (apply elem_of_cons in Hin as [Hin|Hin];
          [injection Hin as -> -> -> ->; lia|]).
  now apply elem_of_nil in Hin.
Qed.

Lemma nud_settled e t s r s' :
  expression_spec e -> strict_spec e -> settled_spec e ->
  lexed s -> i s = S t ->
  nud e t s = (Normal r, s') -> settled t s' r.
Proof.
  intros He Hs Hse Hlexed Ht Hnud.
  pose proof Hlexed as [[Hok Hi] Hlbp].
  pose proof (nud_parsed _ _ _ _ _ He (conj Hok Hi) Ht Hnud)
    as (Hlen' & _ & _ & _ & _ & _).
  pose proof (nud_strict _ _ _ _ _ He Hs (conj Hok Hi) Ht Hnud)
    as (Hkept' & _ & _).
  cut (exists t0, spans (tokens s') t (i s') r t0 /\
         (complete t0 = false <->
          i s' = length (tokens s) /\ open_ended (tokens s))).
  { intros (t0 & Hspan & Hiff). exists t0. split; [exact Hspan|].
    now rewrite Hiff, Hlen', (open_ended_kept _ _ Hkept'). }
  unfold nud in Hnud.
  bind_inv Hnud as o s0 Hderef. unfold deref in Hderef.
  destruct (tokens s !! t) as [o'|] eqn:Hlook; [|discriminate].
  injection Hderef as -> <-.
  pose proof (Forall_lookup_1 _ _ _ _ Hok Hlook) as Ho. unfold token_ok in Ho.
  assert (Hlast : S t = length (tokens s) ->
                  (open_ended (tokens s) <-> takes_operand o)).
  { intros Hl. now apply (open_ended_at _ t). }
  assert (Hsub : forall rbp l s1, 0 <= rbp -> e rbp s = (Normal l, s1) ->
            length (tokens s1) = length (tokens s) /\
            tokens s1 !! t = Some o /\ (S t <= i s1)%nat /\
            binds_tighter rbp (token_lbp s1) = false /\
            (l = None -> S t = length (tokens s)) /\
            exists tl, spans (tokens s1) (S t) (i s1) l tl /\
              (takes_operand o \/ l <> None ->
               (complete tl = false <->
                i s1 = length (tokens s) /\ open_ended (tokens s)))).
  { intros rbp l s1 Hrbp Hexp.
    pose proof (He _ _ _ _ (conj Hok Hi) Hexp)
      as (Hlen & Hle & Hhi & Hok1 & Hframe & _).
    pose proof (Hs _ _ _ _ (conj Hok Hi) Hexp) as (Hkept & _ & Hnone).
    pose proof (Hse rbp _ _ _ Hlexed Hrbp Hexp) as [Hset Hexit].
    split; [exact Hlen|].
    split; [rewrite Hframe; [exact Hlook|lia]|]. split; [lia|].
    split; [exact Hexit|].
    destruct l as [kl|].
    - split; [discriminate|].
      destruct (Hset ltac:(discriminate)) as (tl & Hspan & Hiff).
      exists tl. rewrite Ht in Hspan. split; [exact Hspan|]. intros _.
      now rewrite Hiff, Hlen, <- (open_ended_kept _ _ Hkept).
    - destruct (Hnone eq_refl) as [-> Hend]. unfold at_end in Hend.
      apply Nat.leb_le in Hend. split; [intros _; lia|].
      exists Missing. split; [constructor; lia|]. simpl.
      intros [Htakes|Hl]; [|now destruct Hl].
      split; [intros _|reflexivity]. split; [lia|].
      apply Hlast; [lia|exact Htakes]. }
  destruct (made_by o) as [str bp ra au| | | | |] eqn:Hmade.
  - destruct (au =? 1) eqn:Hau; [simpl in Hnud|discriminate].
    apply Z.eqb_eq in Hau. subst au.
    bind_inv Hnud as l s1 Hexp.
    destruct (Hsub 70 l s1 ltac:(lia) Hexp)
      as (Hlen & Hlook1 & Hle & _ & _ & tl & Hspan & Hiff).
    bind_inv Hnud as u2 s2 Hs2. injection Hs2 as _ <-.
    bind_inv Hnud as u3 s3 Hs3. injection Hs3 as _ <-.
    injection Hnud as <- <-. simpl.
    exists (Unary str tl).
    split; [|apply Hiff; left; unfold takes_operand; now rewrite Hmade].
    apply (span_unary _ _ _ t (set_type ("op_u" ++ str) (set_left l o)));
      simpl; try reflexivity.
    + lia.
    + now rewrite !list_lookup_alter_eq, Hlook1.
    + now apply operators_nonneg in Ho as (_ & _ & Hu); auto.
    + eapply spans_frame; [exact Hspan|].
      intros k Hk. rewrite !list_lookup_alter_ne by lia. reflexivity.
  - injection Hnud as <- <-. destruct Ho as (Hty & n & Hval & _).
    exists (Literal n). split; [apply (span_literal _ _ _ t o); auto; lia|].
    simpl. split; [discriminate|]. intros [Hend Hopen].
    apply Hlast in Hopen; [|lia]. unfold takes_operand in Hopen.
    now rewrite Hmade in Hopen.
  - bind_inv Hnud as l s1 Hexp.
    destruct (Hsub 70 l s1 ltac:(lia) Hexp)
      as (Hlen & Hlook1 & Hle & _ & _ & tl & Hspan & Hiff).
    bind_inv Hnud as u2 s2 Hs2. injection Hs2 as _ <-.
    injection Hnud as <- <-. simpl. destruct Ho as [Hty Hval].
    exists (Apply (value o) tl).
    split; [|apply Hiff; left; unfold takes_operand; now rewrite Hmade].
    apply (span_apply _ _ _ t (set_left l o)); simpl; auto; try lia.
    + now rewrite !list_lookup_alter_eq, Hlook1.
    + eapply spans_frame; [exact Hspan|].
      intros k Hk. rewrite !list_lookup_alter_ne by lia. reflexivity.
  - injection Hnud as <- <-. destruct Ho as (Hty & Hval).
    exists (Variable_ref (match value o with Str name => name | _ => EmptyString end)).
    split.
    { apply (span_variable _ _ _ t o); auto; [lia|]. now destruct Hval as [-> | ->]. }
    simpl. split; [discriminate|]. intros [Hend Hopen].
    apply Hlast in Hopen; [|lia]. unfold takes_operand in Hopen.
    now rewrite Hmade in Hopen.
  - discriminate.
  - bind_inv Hnud as e0 s1 Hexp.
    destruct (Hsub 0 e0 s1 ltac:(lia) Hexp)
      as (Hlen & Hlook1 & Hle & Hexit & Hnone & t0 & Hspan & Hiff).
    destruct (bool_decide (token_type s1 = Some ")")) eqn:Hclose;
      [simpl in Hnud|discriminate].
    apply bool_decide_eq_true in Hclose. unfold token_type, token in Hclose.
    unfold token_lbp, token in Hexit.
    destruct (at_end s1) eqn:Hend; [discriminate|].
    apply Nat.leb_gt in Hend.
    injection Hnud as <- <-. simpl.
    exists t0. split; [eapply spans_weaken; [exact Hspan| |]; lia|].
    assert (Hwhole : complete t0 = true).
    { assert (Hsome : takes_operand o \/ e0 <> None).
      { right. intros ->. specialize (Hnone eq_refl). lia. }
      destruct (complete t0) eqn:Hc; [reflexivity|].
      destruct (proj1 (Hiff Hsome) eq_refl) as [Hcur _]. lia. }
    rewrite Hwhole. split; [discriminate|]. intros [Hcur Hopen]. exfalso.
    destruct (tokens s1 !! i s1) as [oc|] eqn:Hlookc; [|discriminate].
    simpl in Hclose, Hexit.
    pose proof (He _ _ _ _ (conj Hok Hi) Hexp) as (_ & _ & _ & Hok1 & _).
    pose proof (Hs _ _ _ _ (conj Hok Hi) Hexp) as (Hkept & _).
    pose proof (Forall_lookup_1 _ _ _ _ Hok1 Hlookc) as Hoc.
    pose proof (Forall_lookup_1 _ _ _ _ (lexed_kept _ _ Hlbp Hkept) Hlookc) as Hlc.
    simpl in Hlc. unfold token_ok in Hoc.
    rewrite (open_ended_kept _ _ Hkept) in Hopen.
    apply (open_ended_at _ (i s1) oc) in Hopen; [|lia|exact Hlookc].
    unfold takes_operand in Hopen.
    destruct (made_by oc) as [str bp ra au| | | | |]; try contradiction.
    + apply operators_positive in Hoc. rewrite Hlc in Hexit. simpl in Hexit.
      apply Z.ltb_ge in Hexit. lia.
    + destruct Hoc as [Hty _]. congruence.
Qed.

Lemma led_settled e t l s r s' lo tl :
  expression_spec e -> strict_spec e -> settled_spec e ->
  lexed s -> i s = S t -> (lo <= t)%nat ->
  spans (tokens s) lo t l tl -> complete tl = true ->
  led e t l s = (Normal r, s') -> settled lo s' r.
Proof.
  intros He Hs Hse Hlexed Ht Hlo Hl Hwhole Hled.
  pose proof Hlexed as [[Hok Hi] Hlbp].
  pose proof (led_parsed _ _ _ _ _ _ _ _ He (conj Hok Hi) Ht Hlo
                (spans_represents _ _ _ _ _ Hl) Hled)
    as (Hlen' & _ & _ & _ & _ & _).
  pose proof (led_strict _ _ _ _ _ _ _ _ He Hs (conj Hok Hi) Ht Hlo Hl Hled)
    as (Hkept' & _ & _).
  cut (exists t0, spans (tokens s') lo (i s') r t0 /\
         (complete t0 = false <->
          i s' = length (tokens s) /\ open_ended (tokens s))).
  { intros (t0 & Hspan & Hiff). exists t0. split; [exact Hspan|].
    now rewrite Hiff, Hlen', (open_ended_kept _ _ Hkept'). }
  unfold led in Hled.
  bind_inv Hled as o s0 Hderef. unfold deref in Hderef.
  destruct (tokens s !! t) as [o'|] eqn:Hlook; [|discriminate].
  injection Hderef as -> <-.
  pose proof (Forall_lookup_1 _ _ _ _ Hok Hlook) as Ho. unfold token_ok in Ho.
  destruct (made_by o) as [str bp ra au| | | | |] eqn:Hmade; try discriminate.
  bind_inv Hled as u1 s1 Hs1. injection Hs1 as _ <-.
  bind_inv Hled as r0 s2 Hexp.
  assert (Hkept1 : Forall2 kept (tokens s) (alter (set_left l) t (tokens s))).
  { apply kept_alter; [apply Forall2_kept_refl|].
    intros x x' Hx _ Hxx'. rewrite Hlook in Hx. injection Hx as <-.
    unfold kept in *. simpl. now rewrite Hmade in *. }
  assert (Hready : ready {| tokens := alter (set_left l) t (tokens s); i := i s |}).
  { split; simpl; [|now rewrite length_alter].
    apply Forall_alter; [exact Hok|]. intros x _. apply token_ok_set_left. }
  assert (Hlexed1 : lexed {| tokens := alter (set_left l) t (tokens s); i := i s |}).
  { split; [exact Hready|]. simpl. eapply lexed_kept; [exact Hlbp|exact Hkept1]. }
  pose proof (He _ _ _ _ Hready Hexp) as (Hlen & Hle & Hhi & Hok2 & Hframe & _).
  pose proof (Hs _ _ _ _ Hready Hexp) as (Hkept & _ & Hnone).
  assert (Hrbp : 0 <= bp - ra) by now apply operators_nonneg in Ho.
  pose proof (Hse _ _ _ _ Hlexed1 Hrbp Hexp) as [Hset _].
  simpl in Hlen, Hle, Hhi, Hframe, Hkept, Hset.
  rewrite length_alter in Hlen, Hhi.
  bind_inv Hled as u3 s3 Hs3. injection Hs3 as _ <-.
  bind_inv Hled as u4 s4 Hs4. injection Hs4 as _ <-.
  injection Hled as <- <-. simpl.
  assert (Hlook2 : tokens s2 !! t = Some (set_left l o)).
  { rewrite Hframe by lia. now rewrite list_lookup_alter_eq, Hlook. }
  assert (Hsub : exists tr, spans (tokens s2) (S t) (i s2) r0 tr /\
            (complete tr = false <->
             i s2 = length (tokens s) /\ open_ended (tokens s))).
  { destruct r0 as [kr|].
    - destruct (Hset ltac:(discriminate)) as (tr & Hspan & Hiff).
      exists tr. rewrite Ht in Hspan. split; [exact Hspan|].
      now rewrite Hiff, Hlen, <- (open_ended_kept _ _ Hkept),
        <- (open_ended_kept _ _ Hkept1).
    - destruct (Hnone eq_refl) as [-> Hend]. unfold at_end in Hend.
      apply Nat.leb_le in Hend. simpl in Hend. rewrite length_alter in Hend.
      exists Missing. simpl. split; [constructor; lia|].
      split; [intros _|reflexivity]. split; [lia|].
      apply (open_ended_at _ t o); [lia|exact Hlook|].
      unfold takes_operand. now rewrite Hmade. }
  destruct Hsub as (tr & Hspan & Hiff).
  exists (Binary str tl tr). split; [|simpl; now rewrite Hwhole].
  apply (span_binary _ _ _ t
           (set_type ("op_b" ++ str) (set_right r0 (set_left l o))));
    simpl; try reflexivity.
  - pose proof (spans_range _ _ _ _ _ Hspan). lia.
  - now rewrite !list_lookup_alter_eq, Hlook2.
  - now apply operators_nonneg in Ho as (Hin & _ & _).
  - eapply spans_frame; [exact Hl|].
    intros k Hk. rewrite !list_lookup_alter_ne by lia.
    rewrite Hframe by lia. now rewrite list_lookup_alter_ne by lia.
  - eapply spans_frame; [exact Hspan|].
    intros k Hk. rewrite !list_lookup_alter_ne by lia. reflexivity.
Qed.

(** What [expression] returns is settled, whatever its fuel. *)
Lemma expression_settled_both fuel :
  settled_spec (expression fuel) /\
  (forall rbp l s r s' lo,
     lexed s -> 0 <= rbp -> (lo <= i s)%nat -> l <> None ->
     settled lo s l ->
     expression_loop fuel rbp l s = (Normal r, s') ->
     settled lo s' r /\ binds_tighter rbp (token_lbp s') = false).
Proof.
  induction fuel as [|fuel [IHe IHl]];
    [split; [intros rbp s r s' _ _|intros rbp l s r s' lo _ _ _ _ _];
     discriminate|].
  destruct (expression_parsed_both fuel) as [Hspec _].
  destruct (expression_strict_both fuel) as [Hstrict _]. split.
  - intros rbp s r s' Hlexed Hrbp Hexp. pose proof Hlexed as [[Hok Hi] Hlbp].
    simpl in Hexp. destruct (at_end s) eqn:Hend.
    { injection Hexp as <- <-. split; [intros Hr; now destruct Hr|].
      unfold token_lbp, token. rewrite Hend. simpl. apply Z.ltb_ge. lia. }
    apply Nat.leb_gt in Hend.
    bind_inv Hexp as u1 s1 Hs1. injection Hs1 as _ <-.
    bind_inv Hexp as l s2 Hnud.
    assert (Hready : ready {| tokens := tokens s; i := S (i s) |})
      by (split; simpl; [exact Hok|lia]).
    assert (Hlexed1 : lexed {| tokens := tokens s; i := S (i s) |})
      by (split; [exact Hready|exact Hlbp]).
    pose proof (nud_parsed _ _ _ _ _ Hspec Hready eq_refl Hnud)
      as (Hlen & Hle & Hhi & Hok2 & _ & _).
    pose proof (nud_strict _ _ _ _ _ Hspec Hstrict Hready eq_refl Hnud)
      as (Hkept & _ & Hl).
    pose proof (nud_settled _ _ _ _ _ Hspec Hstrict IHe Hlexed1 eq_refl Hnud)
      as Hset.
    simpl in *.
    eapply (IHl _ _ _ _ _ (i s)) in Hexp as [Hset' Hexit];
      [|split; [split; [exact Hok2|lia]|eapply lexed_kept; [exact Hlbp|exact Hkept]]
       |exact Hrbp|lia|exact Hl|exact Hset].
    split; [intros _; exact Hset'|exact Hexit].
  - intros rbp l s r s' lo Hlexed Hrbp Hlo Hnone Hset Hloop.
    pose proof Hlexed as [[Hok Hi] Hlbp]. simpl in Hloop.
    destruct (binds_tighter rbp (token_lbp s)) eqn:Hbinds.
    2:{ injection Hloop as <- <-. auto. }
    unfold token_lbp, token in Hbinds. unfold token in Hloop.
    destruct (at_end s) eqn:Hend.
    { bind_inv Hloop as u1 s1 Hs1. discriminate. }
    apply Nat.leb_gt in Hend.
    bind_inv Hloop as u1 s1 Hs1. injection Hs1 as _ <-.
    bind_inv Hloop as l' s2 Hled.
    assert (Hready : ready {| tokens := tokens s; i := S (i s) |})
      by (split; simpl; [exact Hok|lia]).
    assert (Hlexed1 : lexed {| tokens := tokens s; i := S (i s) |})
      by (split; [exact Hready|exact Hlbp]).
    destruct Hset as (tl & Hl & Hiff).
    assert (Hwhole : complete tl = true).
    { destruct (complete tl); [reflexivity|].
      destruct (proj1 Hiff eq_refl) as [Hcur _]. lia. }
    pose proof (led_parsed _ _ _ _ _ _ _ _ Hspec Hready eq_refl Hlo
                  (spans_represents _ _ _ _ _ Hl) Hled)
      as (Hlen & Hle & Hhi & Hok2 & _ & _).
    pose proof (led_strict _ _ _ _ _ _ _ _ Hspec Hstrict Hready eq_refl Hlo Hl Hled)
      as (Hkept & _ & Hl').
    pose proof (led_settled _ _ _ _ _ _ _ _ Hspec Hstrict IHe Hlexed1 eq_refl
                  Hlo Hl Hwhole Hled) as Hset'.
    simpl in *.
    eapply (IHl _ _ _ _ _ lo) in Hloop as [Hset'' Hexit];
      [|split; [split; [exact Hok2|lia]|eapply lexed_kept; [exact Hlbp|exact Hkept]]
       |exact Hrbp|lia|exact Hl'|exact Hset'].
    auto.
Qed.

(** The tree that [create_parse_tree] returns for the tokens of
    [lex_scan] lacks an operand exactly when every token was read and the
    last one takes an operand, or there was no token at all. *)
Lemma create_parse_tree_settled toks r s' :
  Forall fresh_token toks -> Forall token_ok toks ->
  create_parse_tree toks = (Normal r, s') ->
  exists t,
    spans (tokens s') 0 (length toks) r t /\
    (complete t = false <->
     i s' = length toks /\ (toks = [] \/ open_ended toks)).
Proof.
  intros Hfresh Hok Hparse.
  assert (Hlexed : lexed {| tokens := toks; i := 0 |}).
  { split; [split; simpl; [exact Hok|lia]|]. simpl.
    eapply Forall_impl; [exact Hfresh|]. apply fresh_token_lbp. }
  pose proof (create_parse_tree_strict _ _ _ Hok Hparse) as (Hkept & _ & Hnil).
  unfold create_parse_tree in Hparse.
  pose proof (proj1 (expression_parsed_both _) _ _ _ _ (proj1 Hlexed) Hparse)
    as (Hlen & Hle & Hhi & _). simpl in Hlen, Hle, Hhi.
  apply (proj1 (expression_settled_both _)) in Hparse as [Hset _];
    [|exact Hlexed|lia].
  destruct r as [k|].
  - destruct (Hset ltac:(discriminate)) as (t & Hspan & Hiff). simpl in Hspan.
    exists t. split; [eapply spans_weaken; [exact Hspan| |]; lia|].
    rewrite Hiff, Hlen, <- (open_ended_kept _ _ Hkept).
    split; [intros [? ?]; auto|]. intros [Hcur [->|Hopen]]; [|auto].
    simpl in Hspan. inversion Hspan; subst; simpl in *; lia.
  - rewrite (Hnil eq_refl) in *. exists Missing.
    split; [constructor; lia|]. simpl. split; [|reflexivity].
    intros _. split; [simpl in *; lia|now left].
Qed.

(** ** Facts about the evaluator *)

Section EvaluatorFacts.

Variable H : Math.host.






Lemma type_is_eq o ty ty' :
  type o = Some ty -> type_is o ty' = (ty =? ty')%string.
Proof. unfold type_is. now intros ->. Qed.

(** One step of the evaluator at a node of each kind. *)
Lemma evaluate_literal fuel k o n x y m :
  objects m !! k = Some o -> type o = Some "value" -> value o = Num n ->
  evaluate_tree H (S fuel) (Some k) x y m = (Normal (number_value n), m).
Proof.
  intros Hlook Hty Hval. cbn [evaluate_tree]. unfold bind at 1, read.
  rewrite Hlook, !(type_is_eq _ _ _ Hty), Hval. reflexivity.
Qed.

Lemma evaluate_variable fuel k o name x y m :
  objects m !! k = Some o -> type o = Some "variable" -> value o = Str name ->
  evaluate_tree H (S fuel) (Some k) x y m =
  (Normal (number_value (if (name =? "x")%string then x else y)), m).
Proof.
  intros Hlook Hty Hval. cbn [evaluate_tree]. unfold bind at 1, read.
  rewrite Hlook, !(type_is_eq _ _ _ Hty). cbn. unfold binding.
  now rewrite Hval.
Qed.

Lemma evaluate_apply fuel k o x y m :
  objects m !! k = Some o -> type o = Some "function" ->
  evaluate_tree H (S fuel) (Some k) x y m =
  (a <- evaluate_tree H fuel (left o) x y ;; apply_value H k o a) m.
Proof.
  intros Hlook Hty. cbn [evaluate_tree]. unfold bind at 1, read.
  rewrite Hlook, !(type_is_eq _ _ _ Hty). reflexivity.
Qed.

Lemma evaluate_unary fuel k o str x y m :
  objects m !! k = Some o -> type o = Some ("op_u" ++ str) ->
  str ∈ ["+"; "-"] ->
  evaluate_tree H (S fuel) (Some k) x y m =
  (if (str =? "+")%string then evaluate_tree H fuel (left o) x y
   else a <- evaluate_tree H fuel (left o) x y ;;
        ret (number_value (Number.neg (ToNumber a)))) m.
Proof.
  intros Hlook Hty Hstr. cbn [evaluate_tree]. unfold bind at 1, read.
  rewrite Hlook, !(type_is_eq _ _ _ Hty).
  apply elem_of_cons in Hstr as [->|Hstr];
    [|apply elem_of_cons in Hstr as [->|Hstr]; [|now apply elem_of_nil in Hstr]];
    reflexivity.
Qed.

Lemma evaluate_binary fuel k o str x y m :
  objects m !! k = Some o -> type o = Some ("op_b" ++ str) ->
  str ∈ ["+"; "-"; "*"; "/"; "^"] ->
  evaluate_tree H (S fuel) (Some k) x y m =
  (a <- evaluate_tree H fuel (left o) x y ;;
   b <- evaluate_tree H fuel (right o) x y ;;
   ret (operate H str a b)) m.
Proof.
  intros Hlook Hty Hstr. cbn [evaluate_tree]. unfold bind at 1, read.
  rewrite Hlook, !(type_is_eq _ _ _ Hty).
  repeat (apply elem_of_cons in Hstr as [->|Hstr]; [reflexivity|]).
  now apply elem_of_nil in Hstr.
Qed.

(** A call of a member of [Object.prototype] returns, making an object
    only when the member is [constructor], or throws a [TypeError], and
    that only when the member is none of those that return. *)
Lemma call_inherited_outcome this name a m :
  exists c made1,
    call_inherited this name a m = (c, {| objects := objects m; made := made1 |}) /\
    ((exists v, c = Normal v) \/
     (c = Throw TypeError /\ name ∉ returning_members)) /\
    (made m <= made1)%nat /\ (name <> "constructor" -> made1 = made m).
Proof.
  unfold call_inherited. destruct m as [h made0]. simpl.
  destruct (String.eqb_spec name "constructor") as [->|Hc].
  { unfold Object_call, make.
    destruct a as [[| | |]| |]; eexists _, _;
      (split; [reflexivity|]); (split; [eauto|]); (split; [simpl; lia|]);
      intros Hne; now destruct Hne. }
  destruct (String.eqb_spec name "toString") as [->|H1];
    [eexists _, _; repeat split; eauto|].
  destruct (String.eqb_spec name "toLocaleString") as [->|H2];
    [eexists _, _; repeat split; eauto|].
  destruct (String.eqb_spec name "valueOf") as [->|H3];
    [eexists _, _; repeat split; eauto|].
  destruct (String.eqb_spec name "hasOwnProperty") as [->|H4];
    [eexists _, _; repeat split; eauto|].
  destruct (String.eqb_spec name "propertyIsEnumerable") as [->|H5];
    [eexists _, _; repeat split; eauto|].
  destruct (String.eqb_spec name "isPrototypeOf") as [->|H6];
    [eexists _, _; repeat split; eauto|].
  destruct (String.eqb_spec name "__lookupGetter__") as [->|H7];
    [eexists _, _; repeat split; eauto|].
  destruct (String.eqb_spec name "__lookupSetter__") as [->|H8];
    [eexists _, _; repeat split; eauto|].
  eexists _, _. split; [reflexivity|]. split; [|split; [simpl; lia|reflexivity]].
  right. split; [reflexivity|]. unfold returning_members.
  rewrite !elem_of_cons, elem_of_nil. tauto.
Qed.

(** On a heap region that holds a tree, the evaluator ends with any fuel
    of at least the height of the tree, in the way [verdict] says, and
    leaves the token objects as they are; it makes an object only when a
    function node holds [constructor]. *)
Lemma evaluate_represented h lo hi r t x y :
  represents h lo hi r t ->
  forall made0, exists c made1,
    (forall fuel, (height t <= fuel)%nat ->
       evaluate_tree H fuel r x y {| objects := h; made := made0 |}
       = (c, {| objects := h; made := made1 |})) /\
    verdict t c /\ (made0 <= made1)%nat /\
    ("constructor" ∉ inherited_members t -> made1 = made0).
Proof.
  induction 1 as [|k o n Hk Hlook Hty Hval|k o name Hk Hlook Hty Hval
                  |k o t Hk Hlook Hty Hval Hrep IH
                  |k o str t Hk Hlook Hty Hstr Hrep IH
                  |k o str tl tr Hk Hlook Hty Hstr Hl IHl Hr IHr];
    intros made0.
  - exists (Throw (Message "Error parsing input, probably invalid.")), made0.
    split; [|split; [left; split; reflexivity|split; [lia|reflexivity]]].
    intros [|fuel] Hfuel; [simpl in Hfuel; lia|reflexivity].
  - exists (Normal (number_value n)), made0.
    split; [|split; [split; eauto|split; [lia|reflexivity]]].
    intros [|fuel] Hfuel; [simpl in Hfuel; lia|].
    now apply (evaluate_literal _ _ o).
  - exists (Normal (number_value (if (name =? "x")%string then x else y))), made0.
    split; [|split; [split; eauto|split; [lia|reflexivity]]].
    intros [|fuel] Hfuel; [simpl in Hfuel; lia|].
    now apply (evaluate_variable _ _ o).
  - destruct (IH made0) as (ca & ma & Heval & Hv & Hle & Hsame).
    assert (Hstep : forall fuel, (height (Apply (value o) t) <= fuel)%nat ->
              evaluate_tree H fuel (Some k) x y {| objects := h; made := made0 |} =
              match ca with
              | Normal a => apply_value H k o a {| objects := h; made := ma |}
              | Throw e => (Throw e, {| objects := h; made := ma |})
              | Beyond v => (Beyond v, {| objects := h; made := ma |})
              | OutOfFuel => (OutOfFuel, {| objects := h; made := ma |})
              end).
    { intros [|fuel] Hfuel; cbn [height] in Hfuel; [lia|].
      rewrite (evaluate_apply _ _ o) by assumption. unfold bind.
      rewrite Heval by lia. now destruct ca. }
    destruct ca as [a|e|v|]; try contradiction.
    + destruct Hv as [Hcomplete Hnum]. unfold apply_value in Hstep.
      destruct Hval as [[f Hf]|[name Hname]]; rewrite ?Hf, ?Hname in *.
      * eexists _, ma. split; [exact Hstep|].
        split; [split; [exact Hcomplete|eauto]|]. split; [lia|].
        intros Hno. auto.
      * destruct (call_inherited_outcome k name a {| objects := h; made := ma |})
          as (c & m1 & Hcall & Hout & Hle1 & Hsame1). simpl in *.
        exists c, m1. split; [intros fuel Hfuel; now rewrite Hstep|].
        split; [|split; [lia|]].
        -- destruct Hout as [[v ->]|[-> Hname']]; simpl.
           ++ split; [exact Hcomplete|]. discriminate.
           ++ right. split; [reflexivity|]. exists name. split; [left|exact Hname'].
        -- intros Hno. rewrite Hsame1, Hsame; [reflexivity| |];
             intros Hin; apply Hno; [now right|subst; now left].
    + exists (Throw e), ma. split; [exact Hstep|]. split; [|split; [lia|]].
      * destruct Hv as [[-> Hc]|[-> (name & Hin & Hname)]]; [left|right];
          split; auto.
        exists name. split; [|exact Hname].
        destruct (value o); simpl; auto. now right.
      * intros Hno. apply Hsame. intros Hin. apply Hno.
        destruct (value o); simpl; auto. now right.
  - destruct (IH made0) as (ca & ma & Heval & Hv & Hle & Hsame).
    assert (Hplus : str = "+" \/ str = "-").
    { apply elem_of_cons in Hstr as [->|Hstr]; [now left|].
      apply elem_of_cons in Hstr as [->|Hstr]; [now right|].
      now apply elem_of_nil in Hstr. }
    exists (if (str =? "+")%string then ca
            else match ca with
                 | Normal a => Normal (number_value (Number.neg (ToNumber a)))
                 | other => other
                 end), ma.
    split; [|split; [|split; [lia|exact Hsame]]].
    + intros [|fuel] Hfuel; cbn [height] in Hfuel; [lia|].
      rewrite (evaluate_unary _ _ o str) by assumption.
      destruct Hplus as [-> | ->]; simpl; [apply Heval; lia|].
      unfold bind. rewrite Heval by lia. now destruct ca.
    + destruct Hplus as [-> | ->]; simpl; [exact Hv|].
      destruct ca as [a|e|v|]; try contradiction; [|exact Hv].
      destruct Hv as [Hc _]. split; [exact Hc|eauto].
  - destruct (IHl made0) as (ca & ma & Heval & Hv & Hle & Hsame).
    destruct ca as [a|e|v|]; try contradiction.
    2:{ exists (Throw e), ma. split; [|split; [|split; [lia|]]].
        - intros [|fuel] Hfuel; cbn [height] in Hfuel; [lia|].
          rewrite (evaluate_binary _ _ o str) by assumption.
          unfold bind. now rewrite Heval by lia.
        - destruct Hv as [[-> Hc]|[-> (name & Hin & Hname)]]; [left|right];
            split; auto; [simpl; now rewrite Hc|].
          exists name. split; [|exact Hname]. simpl. apply elem_of_app. now left.
        - intros Hno. apply Hsame. intros Hin. apply Hno. simpl.
          apply elem_of_app. now left. }
    destruct (IHr ma) as (cb & mb & Hevalb & Hvb & Hleb & Hsameb).
    exists (match cb with
            | Normal b => Normal (operate H str a b)
            | other => other
            end), mb.
    split; [|split; [|split; [lia|]]].
    + intros [|fuel] Hfuel; cbn [height] in Hfuel; [lia|].
      rewrite (evaluate_binary _ _ o str) by assumption.
      unfold bind. rewrite Heval by lia. rewrite Hevalb by lia.
      now destruct cb.
    + destruct Hv as [Hca Hna].
      destruct cb as [b|e|v|]; try contradiction; simpl.
      * destruct Hvb as [Hcb Hnb]. split; [now rewrite Hca, Hcb|].
        intros Hnil. apply app_eq_nil in Hnil as [Hnl Hnr].
        destruct (Hna Hnl) as [na ->], (Hnb Hnr) as [nb ->].
        unfold operate, plus. simpl. destruct (str =? "+")%string; eauto.
      * destruct Hvb as [[-> Hc]|[-> (name & Hin & Hname)]]; [left|right];
          split; auto; [now rewrite Hc, andb_false_r|].
        exists name. split; [|exact Hname]. apply elem_of_app. now right.
    + intros Hno. rewrite Hsameb, Hsame; [reflexivity| |];
        intros Hin; apply Hno; simpl; apply elem_of_app; auto.
Qed.

(** *** A call made later

    The evaluator does in a later state of the memory what it does now,
    except that the objects it makes are other objects. *)









End EvaluatorFacts.

(** * The claims *)

(** [evaluates] by computation: [evaluate_at] for a value that does not
    depend on the host, [evaluate_with] after rewriting with an assumption
    on the host. *)
Ltac evaluate_at n :=
  eexists _, _, n; split;
  [vm_compute; reflexivity | intros fuel made0; vm_compute; reflexivity].

Ltac evaluate_with n Hs :=
  eexists _, _, n; split;
  [vm_compute; reflexivity
  |intros fuel made0; vm_compute; vm_compute in Hs; rewrite ?Hs; reflexivity].

Local Notation "# z" := (Number.of_Z z) (at level 1, format "# z").

(** [represents] for a tree given in full, node by node. *)
Ltac build_represents :=
  repeat (simpl;
          lazymatch goal with
          | |- represents ?h _ _ (Some ?k) (Apply _ _) =>
              let found := eval vm_compute in (h !! k) in
              lazymatch found with
              | Some ?o => apply (rep_apply _ _ _ k o)
              end
          | |- _ \/ _ => left
          | |- _ => econstructor
          end; simpl; try lia; try reflexivity; try set_solver).

(** ** C1 *)

(** C1, as stated, fails: [parse] reports nothing on the empty input and
    on "2+"; it returns [undefined] for the first, and for the second a
    binary [+] node whose right child is [undefined]. *)
Lemma parse_returns_tree_with_missing_operand :
  parse EmptyString = Normal (None, []) /\
  ~ fully_formed [] None /\
  exists h o,
    parse "2+" = Normal (Some 1%nat, h) /\
    h !! 1%nat = Some o /\ type o = Some "op_b+" /\ right o = None /\
    ~ fully_formed h (Some 1%nat).
Proof.
  split; [reflexivity|]. split.
  { intros (t & Hrep & Hc). inversion Hrep; subst. discriminate. }
  eexists _, _. split; [vm_compute; reflexivity|].
  split; [reflexivity|]. split; [reflexivity|]. split; [reflexivity|].
  intros (t & Hrep & Hc).
  inversion Hrep as [|k o n Hk Hlook Hty|k o n Hk Hlook Hty
                     |k o t' Hk Hlook Hty|k o str t' Hk Hlook Hty
                     |k o str tl tr Hk Hlook Hty Hstr Hl Hr];
    subst; injection Hlook as <-; try discriminate.
  simpl in Hr. inversion Hr; subst. simpl in Hc.
  now rewrite andb_false_r in Hc.
Qed.

(** C1, amended.  For every input, [parse] returns or throws.  What it
    returns need not be fully formed.  The returned tree lacks an operand
    exactly when every token was read and the last token is an operator
    or a function name, or when there is no token at all and [undefined]
    is returned: so for a literal followed by any operator, and for a sign
    or a function name alone, while "(2+" makes [parse] throw and of
    "2 3 +" it reads the 2 only.  The missing operand is reported when the
    tree is evaluated: the evaluator ends, and on a tree that lacks an
    operand it never returns a value but throws "Error parsing input,
    probably invalid."; on a tree that lacks none it returns a value, a
    Number when the tree applies no member of [Object.prototype].  The
    one exception either way is a [TypeError], thrown before by the call
    of a member of [Object.prototype] that does not return. *)
Theorem missing_operand_reported_by_evaluator (H : Math.host) (input : string) :
  ((exists root h, parse input = Normal (root, h)) \/
   (exists e, parse input = Throw e)) /\
  (forall toks root s',
     lex_scan input = Normal toks ->
     create_parse_tree toks = (Normal root, s') ->
     parse input = Normal (root, tokens s') /\
     (root = None <-> toks = []) /\
     exists t,
       represents (tokens s') 0 (length toks) root t /\
       (complete t = false <->
        i s' = length toks /\ (toks = [] \/ open_ended toks)) /\
       forall x y made0, exists c made1,
         (forall fuel,
            evaluate_tree H (height t + fuel) root x y
              {| objects := tokens s'; made := made0 |}
            = (c, {| objects := tokens s'; made := made1 |})) /\
         let unable :=
           c = Throw TypeError /\
           exists name, name ∈ inherited_members t /\
                        name ∉ returning_members in
         if complete t
         then (exists v, c = Normal v /\
                 (inherited_members t = [] -> exists n, v = number_value n)) \/
              unable
         else c = Throw (Message "Error parsing input, probably invalid.") \/
              unable) /\
  (forall n str bp ra au,
     (str, bp, ra, au) ∈ operators ->
     exists s',
       create_parse_tree
         [create_value_token (Num n); create_operator_token str bp ra au]
       = (Normal (Some 1%nat), s') /\
       represents (tokens s') 0 2 (Some 1%nat) (Binary str (Literal n) Missing)) /\
  (forall sign,
     sign ∈ ["+"; "-"] ->
     exists s',
       create_parse_tree [create_operator_token sign 50 0 1]
       = (Normal (Some 0%nat), s') /\
       represents (tokens s') 0 1 (Some 0%nat) (Unary sign Missing)) /\
  (forall f,
     exists s',
       create_parse_tree [create_function_token (Fun f)]
       = (Normal (Some 0%nat), s') /\
       represents (tokens s') 0 1 (Some 0%nat) (Apply (Fun f) Missing)) /\
  parse "(2+" = Throw (Message "Unmatched left parenthesis.") /\
  (exists h, parse "2 3 +" = Normal (Some 0%nat, h) /\
             represents h 0 3 (Some 0%nat) (Literal #2)).
Proof.
  split; [apply parse_completes|]. split; [|split; [|split; [|split; [|split]]]].
  - intros toks root s' Hlex Hparse.
    split; [unfold parse; now rewrite Hlex, Hparse|].
    pose proof (create_parse_tree_strict _ _ _ (lex_scan_ok _ _ Hlex) Hparse)
      as (Hkept & _ & Hnil).
    split.
    { split; [exact Hnil|]. intros ->. now injection Hparse as <- _. }
    destruct (create_parse_tree_settled _ _ _ (lex_scan_fresh _ _ Hlex)
                (lex_scan_ok _ _ Hlex) Hparse) as (t & Hspan & Hiff).
    apply spans_represents in Hspan.
    exists t. split; [exact Hspan|]. split; [exact Hiff|].
    intros x y made0.
    destruct (evaluate_represented H _ _ _ _ _ x y Hspan made0)
      as (c & made1 & Heval & Hv & _).
    exists c, made1. split; [intros fuel; apply Heval; lia|]. cbv zeta.
    destruct c as [v|e|v|]; simpl in Hv; try contradiction.
    + destruct Hv as [-> Hn]. eauto.
    + destruct Hv as [[-> ->]|[-> Hname]]; [now left|].
      destruct (complete t); now right.
  - unfold operators. intros n str bp ra au Hop.
    repeat (apply elem_of_cons in Hop as [Hop|Hop];
            [injection Hop as -> -> -> ->|]); [..|now apply elem_of_nil in Hop];
      (eexists; split; [vm_compute; reflexivity|]; build_represents).
  - intros sign Hsign.
    apply elem_of_cons in Hsign as [->|Hsign];
      [|apply elem_of_cons in Hsign as [->|Hsign];
        [|now apply elem_of_nil in Hsign]];
      (eexists; split; [vm_compute; reflexivity|]; build_represents).
  - intros f. eexists. split; [vm_compute; reflexivity|]. build_represents.
  - vm_compute; reflexivity.
  - eexists. split; [vm_compute; reflexivity|]. build_represents.
Qed.

Lemma missing_operand_reported_by_evaluator_witness :
  let toks := [create_value_token (Num #2); create_operator_token "+" 50 0 1] in
  let h :=
    [create_value_token (Num #2);
     set_type "op_b+" (set_right None (set_left (Some 0%nat)
       (create_operator_token "+" 50 0 1)))] in
  lex_scan "2+" = Normal toks /\
  create_parse_tree toks = (Normal (Some 1%nat), {| tokens := h; i := 2 |}) /\
  exists t,
    represents h 0 2 (Some 1%nat) t /\
    (complete t = false <-> 2%nat = 2%nat /\ (toks = [] \/ open_ended toks)) /\
    forall x y made0, exists c made1,
      (forall fuel,
         evaluate_tree sample_host (height t + fuel) (Some 1%nat) x y
           {| objects := h; made := made0 |}
         = (c, {| objects := h; made := made1 |})) /\
      let unable :=
        c = Throw TypeError /\
        exists name, name ∈ inherited_members t /\
                     name ∉ returning_members in
      if complete t
      then (exists v, c = Normal v /\
              (inherited_members t = [] -> exists n, v = number_value n)) \/
           unable
      else c = Throw (Message "Error parsing input, probably invalid.") \/
           unable.
Proof.
  cbv zeta. split; [vm_compute; reflexivity|]. split; [vm_compute; reflexivity|].
  apply (proj2 (proj2 (proj1 (proj2 (missing_operand_reported_by_evaluator
                                       sample_host "2+"))
                  [create_value_token (Num #2); create_operator_token "+" 50 0 1]
                  (Some 1%nat)
                  {| tokens :=
                       [create_value_token (Num #2);
                        set_type "op_b+" (set_right None (set_left (Some 0%nat)
                          (create_operator_token "+" 50 0 1)))];
                     i := 2 |}
                  ltac:(vm_compute; reflexivity) ltac:(vm_compute; reflexivity)))).
Defined.

(** ** C2 *)

(** C2: a left parenthesis that is never closed makes [parse] throw, but
    a right parenthesis that closes nothing does not: on "2+3)" [parse]
    returns the tree of 2+3, which evaluates to 5, and the [)] is left
    unread. *)
Theorem unmatched_right_parenthesis_accepted (H : Math.host) (x y : number) :
  parse "(2+3" = Throw (Message "Unmatched left parenthesis.") /\
  (exists h, parse "2+3)" = Normal (Some 1%nat, h) /\
             represents h 0 3 (Some 1%nat) (Binary "+" (Literal #2) (Literal #3))) /\
  evaluates H "2+3)" x y (Normal #5).
Proof.
  split; [vm_compute; reflexivity|]. split; [|evaluate_at 2%nat].
  eexists. split; [vm_compute; reflexivity|].
  eapply rep_binary; [lia|reflexivity|reflexivity|set_solver| |].
  - eapply rep_literal; [lia|reflexivity|reflexivity|reflexivity].
  - eapply rep_literal; [lia|reflexivity|reflexivity|reflexivity].
Qed.

(** ** C3 *)

(** C3, as stated, fails: the [led] of [-], left-associative with binding
    power 50, does not call [expression] with 49 but with 50, and the
    [led] of [^], right-associative with binding power 75, does not call
    it with 75 but with 74. *)
Lemma led_binding_power_not_as_claimed :
  let minus := {| tokens := [create_operator_token "-" 50 0 1]; i := 1 |} in
  let caret := {| tokens := [create_operator_token "^" 75 1 0]; i := 1 |} in
  (led (trap (50 - 1)) 0 None minus).1 = Normal (Some 0%nat) /\
  (led (trap 50) 0 None minus).1 = Throw (Message "trap") /\
  (led (trap 75) 0 None caret).1 = Normal (Some 0%nat) /\
  (led (trap (75 - 1)) 0 None caret).1 = Throw (Message "trap").
Proof. repeat split; reflexivity. Qed.

(** C3, amended: the [led] of an operator token parses its right operand
    by a call of [expression] whose minimum binding power is the
    operator's own binding power if the operator is left-associative
    ([right_assoc] is 0), and its own binding power minus 1 if it is
    right-associative ([right_assoc] is 1); it then sets [left], [right]
    and the binary [type] and returns the token. *)
Theorem led_right_operand_binding_power
    (e : Z -> M state (option nat)) (t : nat) (l : option nat) (s : state)
    (o : object) (str : string) (bp right_assoc also_unary : Z) :
  tokens s !! t = Some o ->
  made_by o = operator_token str bp right_assoc also_unary ->
  let rbp := if right_assoc =? 0 then bp else bp - 1 in
  (right_assoc = 0 \/ right_assoc = 1) ->
  led e t l s =
  (assign t (set_left l) ;;;
   r <- e rbp ;;
   assign t (set_right r) ;;;
   assign t (set_type ("op_b" ++ str)) ;;;
   ret (Some t)) s.
Proof.
  intros Hlook Hmade rbp Hassoc. unfold led, bind at 1, deref.
  rewrite Hlook, Hmade. subst rbp.
  destruct Hassoc as [-> | ->]; simpl; [now rewrite Z.sub_0_r | reflexivity].
Qed.

Lemma led_right_operand_binding_power_witness :
  let s := {| tokens := [create_operator_token "^" 75 1 0]; i := 1 |} in
  led (trap 74) 0 None s =
  (assign 0 (set_left None) ;;;
   r <- trap 74 74 ;;
   assign 0 (set_right r) ;;;
   assign 0 (set_type ("op_b" ++ "^")) ;;;
   ret (Some 0%nat)) s.
Proof.
  apply (led_right_operand_binding_power (trap 74) 0 None _
           (create_operator_token "^" 75 1 0) "^" 75 1 0);
    [reflexivity | reflexivity | right; reflexivity].
Defined.

(** Every operator token of [lex_scan] is left- or right-associative in
    that sense. *)
Lemma operators_associativity str bp right_assoc also_unary :
  (str, bp, right_assoc, also_unary) ∈ operators ->
  right_assoc = 0 \/ right_assoc = 1.
Proof.
  unfold operators. intros Hin.
  repeat (apply elem_of_cons in Hin as [Hin|Hin];
          [injection Hin as -> -> -> ->; auto|]).
  now apply elem_of_nil in Hin.
Qed.

(** ** C4 *)

(** C4, as stated, fails: the tree of 2-3-4 does not evaluate to -3; it
    evaluates to -5. *)
Lemma subtraction_chain_is_not_minus_three :
  ~ evaluates sample_host "2-3-4" Number.zero Number.zero (Normal #(-3)) /\
  evaluates sample_host "2-3-4" Number.zero Number.zero (Normal #(-5)).
Proof.
  split; [|evaluate_at 3%nat].
  intros (root & h & n0 & Hparse & Heval).
  vm_compute in Hparse. injection Hparse as <- <-.
  specialize (Heval 3%nat 0%nat). rewrite Nat.add_comm in Heval.
  vm_compute in Heval. discriminate.
Qed.

(** C4, amended: chained operators of one precedence group by their
    associativity: 2-3-4 evaluates to (2-3)-4 = -5 at any bindings, and
    2^3^2 to [Math.pow(2, Math.pow(3, 2))], which is 512 on a host whose
    [Math.pow] is exact at these two points. *)
Theorem chains_group_by_associativity (H : Math.host) (x y : number) :
  Math.pow H #3 #2 = #9 ->
  Math.pow H #2 #9 = #512 ->
  evaluates H "2-3-4" x y (Normal #(-5)) /\
  evaluates H "2^3^2" x y (Normal (Math.pow H #2 (Math.pow H #3 #2))) /\
  evaluates H "2^3^2" x y (Normal #512).
Proof.
  intros Hinner Houter. split; [evaluate_at 3%nat|]. split; [evaluate_at 3%nat|].
  rewrite <- Houter, <- Hinner. evaluate_at 3%nat.
Qed.

Lemma chains_group_by_associativity_witness :
  evaluates sample_host "2-3-4" #1 #1 (Normal #(-5)) /\
  evaluates sample_host "2^3^2" #1 #1
    (Normal (Math.pow sample_host #2 (Math.pow sample_host #3 #2))) /\
  evaluates sample_host "2^3^2" #1 #1 (Normal #512).
Proof.
  apply (chains_group_by_associativity sample_host #1 #1);
    vm_compute; reflexivity.
Defined.

(** ** C5 *)

(** C5: the [nud] of a prefix operator and of a function name parse
    their operand by [expression(70)]; 70 is above the binding power of
    [*] and below that of [^], so -2^2 evaluates to [-Math.pow(2, 2)],
    which is -4, and sin 0+5 to [Math.sin(0) + 5], which is 5. *)
Theorem prefix_operand_binding_power
    (H : Math.host) (x y : number)
    (e : Z -> M state (option nat)) (t : nat) (s : state) (o : object) :
  tokens s !! t = Some o ->
  Math.pow H #2 #2 = #4 ->
  Math.sin H Number.zero = Number.zero ->
  (forall str bp right_assoc,
     made_by o = operator_token str bp right_assoc 1 ->
     nud e t s =
     (l <- e 70 ;;
      assign t (set_left l) ;;;
      assign t (set_type ("op_u" ++ str)) ;;;
      ret (Some t)) s) /\
  (made_by o = function_token ->
   nud e t s = (l <- e 70 ;; assign t (set_left l) ;;; ret (Some t)) s) /\
  (exists times caret,
     lex_scan "*^" = Normal [times; caret] /\
     binds_tighter 70 (lbp times) = false /\
     binds_tighter 70 (lbp caret) = true) /\
  evaluates H "-2^2" x y (Normal #(-4)) /\
  evaluates H "sin 0+5" x y (Normal #5).
Proof.
  intros Hlook Hpow Hsin. repeat split.
  - intros str bp ra Hmade. unfold nud, bind at 1, deref.
    now rewrite Hlook, Hmade.
  - intros Hmade. unfold nud, bind at 1, deref. now rewrite Hlook, Hmade.
  - eexists _, _. repeat split; reflexivity.
  - evaluate_with 3%nat Hpow.
  - evaluate_with 3%nat Hsin.
Qed.

Lemma prefix_operand_binding_power_witness :
  evaluates sample_host "-2^2" #1 #1 (Normal #(-4)) /\
  evaluates sample_host "sin 0+5" #1 #1 (Normal #5).
Proof.
  refine (proj2 (proj2 (proj2
    (prefix_operand_binding_power sample_host #1 #1 (trap 70) 0
       {| tokens := [create_operator_token "-" 50 0 1]; i := 1 |}
       (create_operator_token "-" 50 0 1) _ _ _))));
    vm_compute; reflexivity.
Defined.

(** ** C6 *)

(** C6: multiplication binds tighter than addition and parentheses
    override precedence: 2+3*4 evaluates to 14 and (2+3)*4 to 20, at any
    bindings. *)
Theorem precedence_mul_over_add_and_parens (H : Math.host) (x y : number) :
  evaluates H "2+3*4" x y (Normal #14) /\
  evaluates H "(2+3)*4" x y (Normal #20).
Proof. split; evaluate_at 3%nat. Qed.

(** ** C7 *)

(** The order in which [lex_scan] classifies a symbol name. *)
Lemma classify_priority (m : string) :
  classify m =
  if bool_decide (m = "x" \/ m = "y") then Normal (create_variable_token m)
  else match function_table !! m with
       | Some f => Normal (create_function_token f)
       | None =>
           if bool_decide (m ∈ Object_prototype)
           then Normal (create_function_token (Inherited m))
           else match constant_table !! m with
                | Some con => Normal (create_value_token con)
                | None => Throw (Message ("unknown symbol " ++ m))
                end
       end.
Proof.
  unfold classify.
  replace ((m =? "x")%string || (m =? "y")%string)
    with (bool_decide (m = "x" \/ m = "y")).
  2:{ destruct (String.eqb_spec m "x") as [->|Hx]; [reflexivity|].
      destruct (String.eqb_spec m "y") as [->|Hy]; [reflexivity|].
      apply bool_decide_eq_false. tauto. }
  destruct (bool_decide (m = "x" \/ m = "y")); [reflexivity|].
  unfold get. destruct (function_table !! m) as [f|] eqn:Hf.
  { now destruct (function_table_lookup _ _ Hf) as [g ->]. }
  destruct (bool_decide (m ∈ Object_prototype)); [reflexivity|].
  destruct (constant_table !! m) as [con|] eqn:Hc; [|reflexivity].
  now destruct (constant_table_lookup _ _ Hc) as (n & -> & _).
Qed.

(** C7: a symbol name that is neither [x] nor [y] nor in either table is
    rejected with "unknown symbol" only when [Object.prototype] has no
    member of that name.  The name toString is in neither table, yet
    [lex_scan] makes a function token for it, holding the inherited
    member, and [parse] returns that token as a tree; foo2 is rejected. *)
Theorem inherited_name_becomes_function_token :
  function_table !! "toString" = None /\
  constant_table !! "toString" = None /\
  lex_scan "toString" = Normal [create_function_token (Inherited "toString")] /\
  (exists h, parse "toString" = Normal (Some 0%nat, h)) /\
  lex_scan "foo2" = Throw (Message "unknown symbol foo2").
Proof.
  repeat split; try (vm_compute; reflexivity).
  eexists. vm_compute. reflexivity.
Qed.

(** ** C8 *)

(** C8: 1/0 evaluates to positive infinity, and 0^0 to
    [Math.pow(0, 0)], which ECMAScript fixes to 1. *)
Theorem division_by_zero_and_zero_power (H : Math.host) (x y : number) :
  Math.pow H Number.zero Number.zero = #1 ->
  evaluates H "1/0" x y (Normal Number.infinity) /\
  evaluates H "0^0" x y (Normal #1).
Proof.
  intros Hpow. split; [evaluate_at 2%nat | evaluate_with 2%nat Hpow].
Qed.

Lemma division_by_zero_and_zero_power_witness :
  evaluates sample_host "1/0" #1 #1 (Normal Number.infinity) /\
  evaluates sample_host "0^0" #1 #1 (Normal #1).
Proof.
  apply (division_by_zero_and_zero_power sample_host #1 #1).
  vm_compute; reflexivity.
Defined.

(** ** C9 *)

(** C9 fails on a tree that [parse] accepts through the defect of C7.
    The name constructor is in neither table, yet [lex_scan] makes a
    function token for it that holds [Object.prototype.constructor], which
    is [Object]; [parse] returns the tree of constructor 1, and each call
    of its evaluator returns a new wrapper object of the Number 1: two
    calls with the same bindings do not return the same value.  The token
    objects are left as they were.  In the same way the evaluator of
    toString 1 returns the string "[object Object]", and that of
    __proto__ 1 throws a [TypeError]. *)
Theorem evaluator_returns_new_object_each_call (H : Math.host) (x y : number) :
  function_table !! "constructor" = None /\
  constant_table !! "constructor" = None /\
  (let h := [set_left (Some 1%nat)
               (create_function_token (Inherited "constructor"));
             create_value_token (Num #1)] in
   parse "constructor 1" = Normal (Some 0%nat, h) /\
   forall made0 fuel1 fuel2,
     let first :=
       create_evaluator H (2 + fuel1) (Some 0%nat) x y
         {| objects := h; made := made0 |} in
     let second := create_evaluator H (2 + fuel2) (Some 0%nat) x y first.2 in
     first = (Normal (made_object made0 (Some (js_number #1))),
              {| objects := h; made := S made0 |}) /\
     second = (Normal (made_object (S made0) (Some (js_number #1))),
               {| objects := h; made := S (S made0) |}) /\
     first.1 <> second.1) /\
  (exists h,
     parse "toString 1" = Normal (Some 0%nat, h) /\
     forall made0 fuel,
       create_evaluator H (2 + fuel) (Some 0%nat) x y
         {| objects := h; made := made0 |}
       = (Normal (primitive_value (js_string object_Object)),
          {| objects := h; made := made0 |})) /\
  (exists h,
     parse "__proto__ 1" = Normal (Some 0%nat, h) /\
     forall made0 fuel,
       create_evaluator H (2 + fuel) (Some 0%nat) x y
         {| objects := h; made := made0 |}
       = (Throw TypeError, {| objects := h; made := made0 |})).
Proof.
  split; [reflexivity|]. split; [reflexivity|]. cbv zeta.
  split; [|split; eexists; (split; [vm_compute; reflexivity|]);
            intros made0 fuel; reflexivity].
  split; [vm_compute; reflexivity|].
  intros made0 fuel1 fuel2.
  assert (Hfirst :
    create_evaluator H (2 + fuel1) (Some 0%nat) x y
      {| objects :=
           [set_left (Some 1%nat) (create_function_token (Inherited "constructor"));
            create_value_token (Num #1)];
         made := made0 |}
    = (Normal (made_object made0 (Some (js_number #1))),
       {| objects :=
            [set_left (Some 1%nat) (create_function_token (Inherited "constructor"));
             create_value_token (Num #1)];
          made := S made0 |})) by reflexivity.
  rewrite Hfirst. split; [reflexivity|]. split; [reflexivity|].
  simpl. intros [= Heq]. lia.
Qed.

(** ** C10 *)

(** C10: every literal token that [lex_scan] makes holds a Number whose
    sign bit is clear, hence one that is at least zero: the number
    patterns do accept a leading [-], but when they are tried the switch
    has already taken any leading [-], so the text they match carries no
    sign.  The input -2 becomes the operator [-] followed by the literal
    2, and parses to the unary minus of that literal. *)
Theorem literal_tokens_are_nonnegative (input : string) (toks : list object) :
  lex_scan input = Normal toks ->
  (forall o, o ∈ toks -> made_by o = value_token ->
     exists n, value o = Num n /\ Number.sign_bit n = Some false /\
               Number.leb Number.zero n = true) /\
  (forall rest,
     single_character (String "-" rest) =
     Some ([create_operator_token "-" 50 0 1], 1%nat)) /\
  (forall str m,
     single_character str = None ->
     reg_float str = Some m \/ reg_int str = Some m ->
     is_minus m = false) /\
  (reg_int "-2" = Some "-2" /\ parseInt "-2" = #(-2) /\
   reg_float "-.5" = Some "-.5" /\
   Number.sign_bit (parseFloat "-.5") = Some true) /\
  lex_scan "-2" =
    Normal [create_operator_token "-" 50 0 1; create_value_token (Num #2)] /\
  exists h, parse "-2" = Normal (Some 0%nat, h) /\
            represents h 0 2 (Some 0%nat) (Unary "-" (Literal #2)).
Proof.
  intros Hlex. split; [|split; [|split; [|split; [|split]]]].
  - intros o Hin Hmade. pose proof (lex_scan_ok _ _ Hlex) as Hok.
    rewrite Forall_forall in Hok. specialize (Hok o Hin).
    unfold token_ok in Hok. rewrite Hmade in Hok.
    destruct Hok as (_ & n & Hval & Hn). exists n.
    auto using nonnegative_leb.
  - reflexivity.
  - intros str m Hsingle [Hm|Hm]; apply single_character_unsigned in Hsingle.
    + now apply (reg_float_unsigned str m).
    + now apply (reg_int_unsigned str m).
  - repeat split; vm_compute; reflexivity.
  - vm_compute; reflexivity.
  - eexists. split; [vm_compute; reflexivity|].
    eapply rep_unary; [lia|reflexivity|reflexivity|set_solver|].
    eapply rep_literal; [lia|reflexivity|reflexivity|reflexivity].
Qed.

Lemma literal_tokens_are_nonnegative_witness :
  exists n, value (create_value_token (Num (parseFloat "1.5"))) = Num n /\
            Number.sign_bit n = Some false /\
            Number.leb Number.zero n = true.
Proof.
  apply (proj1 (literal_tokens_are_nonnegative "2-1.5"
                  [create_value_token (Num #2); create_operator_token "-" 50 0 1;
                   create_value_token (Num (parseFloat "1.5"))]
                  ltac:(vm_compute; reflexivity)));
    [repeat constructor | reflexivity].
Defined.

(** * Further properties *)

(** ** The tokenizer *)

Lemma append_assoc (a b c : string) : (a ++ b) ++ c = a ++ (b ++ c).
Proof.
  induction a as [|x a IH]; [reflexivity|].
  change (String x ((a ++ b) ++ c) = String x (a ++ (b ++ c))). now rewrite IH.
Qed.

Lemma span_append p str a b : span p str = (a, b) -> str = a ++ b.
Proof.
  revert a b. induction str as [|c rest IH]; intros a b; simpl.
  - now intros [= <- <-].
  - destruct (p c); [|now intros [= <- <-]].
    destruct (span p rest) as [a' b'] eqn:Hspan. intros [= <- <-].
    change (String c rest = String c (a' ++ b')). now rewrite (IH a' b').
Qed.

Lemma opt_minus_append str sg rest : opt_minus str = (sg, rest) -> str = sg ++ rest.
Proof.
  destruct str as [|c r]; [now intros [= <- <-]|].
  destruct c as [[] [] [] [] [] [] [] []]; now intros [= <- <-].
Qed.

Lemma float_body_prefix str m :
  float_body str = Some m -> m <> EmptyString /\ exists rest, str = m ++ rest.
Proof.
  unfold float_body. destruct (span is_digit str) as [ds rest] eqn:Hds.
  apply span_append in Hds. subst str.
  destruct ds as [|c ds]; (destruct rest as [|d rest']; [discriminate|]);
    (destruct (ascii_dec d ".") as [->|Hd];
     [|destruct d as [[] [] [] [] [] [] [] []]; try discriminate; now destruct Hd]).
  - destruct (span is_digit rest') as [fs r] eqn:Hfs. apply span_append in Hfs.
    destruct fs as [|c fs]; [discriminate|]. intros [= <-].
    split; [discriminate|]. exists r. subst rest'. reflexivity.
  - destruct (span is_digit rest') as [fs r] eqn:Hfs. apply span_append in Hfs.
    intros [= <-]. split; [discriminate|]. exists r. subst rest'.
    now rewrite !append_assoc.
Qed.

(** What a pattern of [lex_scan] matches is a prefix of the text, and is
    not empty. *)
Lemma pattern_prefix str m :
  reg_float str = Some m \/ reg_int str = Some m \/ reg_sym str = Some m ->
  m <> EmptyString /\ exists rest, str = m ++ rest.
Proof.
  intros [Hm|[Hm|Hm]].
  - unfold reg_float in Hm. destruct (opt_minus str) as [sg rest] eqn:Hsg.
    apply opt_minus_append in Hsg. subst str.
    destruct (float_body rest) as [body|] eqn:Hbody; [|discriminate].
    injection Hm as <-. apply float_body_prefix in Hbody as [Hne [r ->]].
    split; [|exists r; now rewrite append_assoc].
    destruct sg; [exact Hne | discriminate].
  - unfold reg_int in Hm. destruct (opt_minus str) as [sg rest] eqn:Hsg.
    apply opt_minus_append in Hsg. subst str.
    destruct (span is_digit rest) as [[|c ds] r] eqn:Hds; [discriminate|].
    apply span_append in Hds. injection Hm as <-.
    split; [destruct sg; discriminate|]. exists r. subst rest.
    now rewrite append_assoc.
  - destruct str as [|c rest]; [discriminate|]. simpl in Hm.
    destruct (is_alpha_ c); [|discriminate]. injection Hm as <-.
    split; [discriminate|].
    destruct (span (fun d => is_alpha_ d || is_digit d) rest) as [a b] eqn:Hs.
    apply span_append in Hs. exists b. subst rest. reflexivity.
Qed.

Lemma length_slice str : forall k, String.length (slice str k) = (String.length str - k)%nat.
Proof.
  induction str as [|c rest IH]; intros [|k]; simpl; auto.
Qed.

Lemma lex_body_bounds str pushed n :
  lex_body str = Normal (pushed, n) ->
  (length pushed <= 1)%nat /\ (1 <= n <= String.length str)%nat.
Proof.
  intros Hbody. pose proof (lex_body_ok _ _ _ Hbody) as [_ Hn].
  revert Hbody. unfold lex_body.
  assert (Hpre : forall m, (exists rest, str = m ++ rest) ->
                 (String.length m <= String.length str)%nat).
  { intros m [rest ->]. rewrite length_append. lia. }
  destruct (single_character str) as [r|] eqn:Hsingle.
  { intros [= ->]. destruct str as [|c rest]; [discriminate|].
    destruct c as [[] [] [] [] [] [] [] []]; simpl in Hsingle;
      first [discriminate | injection Hsingle as <- <-; simpl; lia]. }
  destruct (reg_float str) as [m|] eqn:Hfloat.
  { intros [= <- <-]. simpl. split; [lia|]. split; [exact Hn|].
    apply Hpre, (pattern_prefix str m); auto. }
  destruct (reg_int str) as [m|] eqn:Hint.
  { intros [= <- <-]. simpl. split; [lia|]. split; [exact Hn|].
    apply Hpre, (pattern_prefix str m); auto. }
  destruct (reg_sym str) as [m|] eqn:Hsym; [|discriminate].
  destruct (classify m); try discriminate.
  intros [= <- <-]. simpl. split; [lia|]. split; [exact Hn|].
  apply Hpre, (pattern_prefix str m); auto.
Qed.

Lemma lex_loop_token_count fuel exp_str : forall tokens k toks,
  lex_loop fuel exp_str (String.length exp_str) tokens k = Normal toks ->
  (length tokens <= k)%nat ->
  (length toks <= Nat.max k (String.length exp_str))%nat.
Proof.
  induction fuel as [|fuel IH]; intros tokens k toks; [discriminate|]. simpl.
  destruct (k <? String.length exp_str)%nat eqn:Hk.
  2:{ intros [= <-]. lia. }
  apply Nat.ltb_lt in Hk.
  destruct (lex_body (slice exp_str k)) as [[pushed n]| | |] eqn:Hbody;
    try discriminate.
  apply lex_body_bounds in Hbody as [Hp Hn]. rewrite length_slice in Hn.
  intros Hloop Hlen. apply IH in Hloop; [lia|]. rewrite length_app. lia.
Qed.

(** X1: [lex_scan] ends on every input, in one of three ways: it
    returns tokens, each of them one of the objects the tokenizer makes,
    untouched; or it throws "unknown symbol" with a name that some
    position of the input starts with and that is neither [x] nor [y] nor
    to be found in a table or in [Object.prototype]; or it throws "Failed
    in processing input: " with the rest of the input from a position
    where the switch falls through and no pattern matches. *)
Theorem lex_scan_outcomes (input : string) :
  (exists toks, lex_scan input = Normal toks /\ Forall fresh_token toks) \/
  (exists k m, (k < String.length input)%nat /\
               reg_sym (slice input k) = Some m /\ unknown_symbol m /\
               lex_scan input = Throw (Message ("unknown symbol " ++ m))) \/
  (exists k, (k < String.length input)%nat /\ unmatched (slice input k) /\
             lex_scan input =
             Throw (Message ("Failed in processing input: " ++ slice input k))).
Proof.
  pose proof (lex_loop_fuel (S (String.length input)) input
                (String.length input) [] 0%nat ltac:(lia)) as Hfuel.
  unfold lex_scan. cbv zeta.
  assert (Hnil : Forall fresh_token []) by constructor.
  revert Hfuel Hnil. generalize (@nil object) as tokens, 0%nat as k.
  induction (S (String.length input)) as [|fuel IH]; intros tokens k Hfuel Htok;
    [now destruct Hfuel|].
  simpl in Hfuel |- *.
  destruct (k <? String.length input)%nat eqn:Hk; [|left; eauto].
  apply Nat.ltb_lt in Hk.
  destruct (lex_body_outcome (slice input k))
    as [(pushed & n & Hb & Hp)|[(m & Hsym & Hm & Hb)|[Hun Hb]]];
    rewrite Hb in Hfuel |- *.
  - apply IH; [exact Hfuel|]. apply Forall_app. auto.
  - right; left. exists k, m. auto.
  - right; right. exists k. auto.
Qed.

(** X2: [lex_scan] makes at most one token for each character of the
    input: every pass of its loop takes at least one character, never
    more than are left, and pushes at most one token. *)
Theorem lex_scan_token_count (input : string) (toks : list object) :
  lex_scan input = Normal toks -> (length toks <= String.length input)%nat.
Proof.
  intros Hlex. apply lex_loop_token_count in Hlex; simpl in *; lia.
Qed.

Lemma lex_scan_token_count_witness :
  (length [create_value_token (Num #2); create_operator_token "+" 50 0 1;
           create_variable_token "x"] <= String.length "2 + x")%nat.
Proof.
  apply (lex_scan_token_count "2 + x"). vm_compute; reflexivity.
Defined.

Lemma lex_loop_more_fuel fuel exp_str il : forall tokens k c extra,
  lex_loop fuel exp_str il tokens k = c -> c <> OutOfFuel ->
  lex_loop (fuel + extra) exp_str il tokens k = c.
Proof.
  induction fuel as [|fuel IH]; intros tokens k c extra; simpl.
  { intros <- Hc. now destruct Hc. }
  destruct (k <? il)%nat; [|auto].
  destruct (lex_body (slice exp_str k)) as [[pushed n]| | |]; auto.
Qed.

Lemma lex_loop_agree n m exp_str il tokens k c1 c2 :
  lex_loop n exp_str il tokens k = c1 -> c1 <> OutOfFuel ->
  lex_loop m exp_str il tokens k = c2 -> c2 <> OutOfFuel -> c1 = c2.
Proof.
  intros H1 Hc1 H2 Hc2.
  apply (lex_loop_more_fuel _ _ _ _ _ _ m) in H1; [|exact Hc1].
  apply (lex_loop_more_fuel _ _ _ _ _ _ n) in H2; [|exact Hc2].
  rewrite Nat.add_comm in H2. congruence.
Qed.

(** Tokens pushed before the loop is entered stay in front. *)
Lemma lex_loop_accumulate fuel exp_str il pre : forall tokens k,
  lex_loop fuel exp_str il (pre ++ tokens) k =
  match lex_loop fuel exp_str il tokens k with
  | Normal toks => Normal (pre ++ toks)%list
  | c => c
  end.
Proof.
  induction fuel as [|fuel IH]; intros tokens k; [reflexivity|]. simpl.
  destruct (k <? il)%nat; [|reflexivity].
  destruct (lex_body (slice exp_str k)) as [[pushed n]| | |]; try reflexivity.
  rewrite <- app_assoc. apply IH.
Qed.

Lemma slice_append_r p str : forall k,
  slice (p ++ str) (String.length p + k) = slice str k.
Proof.
  induction p as [|c p' IH]; intros k; [reflexivity|].
  change (slice (p' ++ str) (String.length p' + k) = slice str k). apply IH.
Qed.

Lemma slice_0 str : slice str 0 = str.
Proof. now destruct str. Qed.

Lemma slice_append_l str rest : forall k,
  (k <= String.length str)%nat -> slice (str ++ rest) k = slice str k ++ rest.
Proof.
  induction str as [|c str' IH]; intros k Hk.
  - destruct k; [apply slice_0 | simpl in Hk; lia].
  - destruct k as [|k]; [reflexivity|]. simpl in Hk.
    change (slice (str' ++ rest) k = slice str' k ++ rest). apply IH. lia.
Qed.

Lemma slice_nonempty str : forall k,
  (k < String.length str)%nat -> slice str k <> EmptyString.
Proof.
  intros k Hk Hs. pose proof (length_slice str k) as Hlen.
  rewrite Hs in Hlen. simpl in Hlen. lia.
Qed.

(** The loop on the text after a prefix [p] is the loop on the whole
    text started behind [p]. *)
Lemma lex_loop_shift fuel p exp_str il : forall tokens k,
  lex_loop fuel (p ++ exp_str) (String.length p + il) tokens
           (String.length p + k) =
  lex_loop fuel exp_str il tokens k.
Proof.
  induction fuel as [|fuel IH]; intros tokens k; [reflexivity|]. simpl.
  replace (String.length p + k <? String.length p + il)%nat with (k <? il)%nat.
  2:{ destruct (Nat.ltb_spec k il), (Nat.ltb_spec (String.length p + k)
                                                   (String.length p + il)); lia. }
  destruct (k <? il)%nat; [|reflexivity].
  rewrite slice_append_r.
  destruct (lex_body (slice exp_str k)) as [[pushed n]| | |]; try reflexivity.
  rewrite <- Nat.add_assoc. apply IH.
Qed.

Lemma lex_loop_S fuel exp_str il tokens k :
  lex_loop (S fuel) exp_str il tokens k =
  if (k <? il)%nat then
    match lex_body (slice exp_str k) with
    | Normal (pushed, n) => lex_loop fuel exp_str il (tokens ++ pushed) (k + n)
    | Throw e => Throw e
    | Beyond v => Beyond v
    | OutOfFuel => OutOfFuel
    end
  else Normal tokens.
Proof. reflexivity. Qed.

Lemma is_space_facts w :
  is_space w = true ->
  is_digit w = false /\ is_alpha_ w = false /\ w <> "."%char /\
  forall rest, single_character (String w rest) = Some ([], 1%nat).
Proof.
  destruct w as [[] [] [] [] [] [] [] []]; try discriminate;
    repeat split; try reflexivity; discriminate.
Qed.

(** X4: white space in front of a text does not change what
    [lex_scan] makes of it. *)
Theorem lex_scan_leading_space (w : ascii) (input : string) :
  is_space w = true -> lex_scan (String w input) = lex_scan input.
Proof.
  intros Hw. apply is_space_facts in Hw as (_ & _ & _ & Hsingle).
  unfold lex_scan. cbv zeta.
  change (String.length (String w input)) with (S (String.length input)).
  rewrite lex_loop_S. change (slice (String w input) 0) with (String w input).
  unfold lex_body at 1. rewrite Hsingle.
  exact (lex_loop_shift _ (String w EmptyString) input _ [] 0%nat).
Qed.

Lemma lex_scan_leading_space_witness :
  lex_scan (String " " "2+x") = lex_scan "2+x".
Proof. apply lex_scan_leading_space. reflexivity. Defined.

Lemma span_extend p str w rest :
  p w = false ->
  span p (str ++ String w rest) =
  ((span p str).1, (span p str).2 ++ String w rest).
Proof.
  intros Hw. induction str as [|c str' IH].
  - change (span p (String w rest) = (EmptyString, String w rest)).
    simpl. now rewrite Hw.
  - change (span p (String c (str' ++ String w rest)) =
            ((span p (String c str')).1, (span p (String c str')).2 ++ String w rest)).
    simpl. destruct (p c); [|reflexivity].
    rewrite IH. now destruct (span p str').
Qed.

Lemma single_character_extend c str rest :
  single_character (String c str ++ rest) = single_character (String c str).
Proof. destruct c as [[] [] [] [] [] [] [] []]; reflexivity. Qed.

Lemma opt_minus_extend c str rest :
  opt_minus (String c str ++ rest) =
  ((opt_minus (String c str)).1, (opt_minus (String c str)).2 ++ rest).
Proof. destruct c as [[] [] [] [] [] [] [] []]; reflexivity. Qed.

Lemma float_body_extend str w rest :
  is_space w = true -> float_body (str ++ String w rest) = float_body str.
Proof.
  intros Hw. apply is_space_facts in Hw as (Hdigit & _ & Hdot & _).
  unfold float_body. rewrite (span_extend _ _ _ _ Hdigit).
  destruct (span is_digit str) as [ds tail]. cbn [fst snd].
  destruct tail as [|d tail'].
  - change (EmptyString ++ String w rest) with (String w rest).
    destruct ds; destruct w as [[] [] [] [] [] [] [] []];
      try reflexivity; now destruct Hdot.
  - change (String d tail' ++ String w rest)
      with (String d (tail' ++ String w rest)).
    destruct (ascii_dec d ".") as [->|Hd].
    + rewrite (span_extend _ _ _ _ Hdigit).
      destruct (span is_digit tail') as [fs r]. cbn [fst snd]. now destruct ds.
    + destruct ds; destruct d as [[] [] [] [] [] [] [] []];
        try reflexivity; now destruct Hd.
Qed.

(** A pass of the loop on a text that is not empty is not affected by
    white space and more text after it, unless nothing matches. *)
Lemma lex_body_extend str w rest r :
  is_space w = true -> str <> EmptyString ->
  lex_body str = Normal r -> lex_body (str ++ String w rest) = Normal r.
Proof.
  intros Hw Hne. pose proof (is_space_facts _ Hw) as (Hdigit & Halpha & _ & _).
  destruct str as [|c str']; [now destruct Hne|].
  unfold lex_body. rewrite single_character_extend.
  destruct (single_character (String c str')); [trivial|].
  unfold reg_float, reg_int. rewrite opt_minus_extend.
  destruct (opt_minus (String c str')) as [sg tail]. cbn [fst snd].
  rewrite float_body_extend by exact Hw.
  destruct (float_body tail); [trivial|].
  rewrite (span_extend _ _ _ _ Hdigit).
  destruct (span is_digit tail) as [[|d ds] r']; cbn [fst snd]; [|trivial].
  change (reg_sym (String c str' ++ String w rest))
    with (reg_sym (String c (str' ++ String w rest))).
  cbn [reg_sym]. destruct (is_alpha_ c); [|discriminate].
  rewrite span_extend by (now rewrite Halpha, Hdigit). trivial.
Qed.

Lemma lex_loop_compose fuel a w b tb :
  is_space w = true ->
  lex_scan b = Normal tb ->
  forall tokens k ta,
    (k <= String.length a)%nat ->
    lex_loop fuel a (String.length a) tokens k = Normal ta ->
    exists fuel',
      lex_loop fuel' (a ++ String w b)
               (String.length a + S (String.length b)) tokens k
      = Normal (ta ++ tb)%list.
Proof.
  intros Hw Hb. pose proof (is_space_facts _ Hw) as (_ & _ & _ & Hsingle).
  induction fuel as [|fuel IH]; intros tokens k ta Hk; [discriminate|].
  rewrite lex_loop_S. destruct (k <? String.length a)%nat eqn:Hlt.
  - apply Nat.ltb_lt in Hlt.
    destruct (lex_body (slice a k)) as [[pushed n]| | |] eqn:Hbody;
      try discriminate.
    intros Hloop. pose proof (lex_body_bounds _ _ _ Hbody) as [_ Hn].
    rewrite length_slice in Hn.
    apply IH in Hloop as [fuel' Hloop]; [|lia].
    exists (S fuel'). rewrite lex_loop_S.
    replace (k <? String.length a + S (String.length b))%nat with true
      by (symmetry; apply Nat.ltb_lt; lia).
    rewrite slice_append_l by lia.
    rewrite (lex_body_extend _ _ _ _ Hw (slice_nonempty _ _ Hlt) Hbody).
    exact Hloop.
  - apply Nat.ltb_ge in Hlt. intros [= <-].
    assert (k = String.length a) as -> by lia.
    exists (S (S (String.length b))). rewrite lex_loop_S.
    replace (String.length a <? String.length a + S (String.length b))%nat
      with true by (symmetry; apply Nat.ltb_lt; lia).
    rewrite slice_append_l by lia.
    replace (slice a (String.length a)) with EmptyString.
    2:{ pose proof (length_slice a (String.length a)) as Hlen.
        destruct (slice a (String.length a)); [reflexivity|simpl in Hlen; lia]. }
    change (EmptyString ++ String w b) with (String w b).
    unfold lex_body at 1. rewrite Hsingle, app_nil_r.
    pose proof (lex_loop_shift (S (String.length b)) (a ++ String w EmptyString)
                  b (String.length b) tokens 0%nat) as Hshift.
    rewrite append_assoc, length_append in Hshift.
    change (String w EmptyString ++ b) with (String w b) in Hshift.
    change (String.length (String w EmptyString)) with 1%nat in Hshift.
    replace (String.length a + 1 + String.length b)%nat
      with (String.length a + S (String.length b))%nat in Hshift by lia.
    rewrite Nat.add_0_r in Hshift. rewrite Hshift.
    rewrite <- (app_nil_r tokens) at 1. rewrite lex_loop_accumulate.
    unfold lex_scan in Hb. cbv zeta in Hb. now rewrite Hb.
Qed.

(** X3: two texts put together with white space between them give the
    tokens of the first followed by the tokens of the second: no token
    reaches across white space. *)
Theorem lex_scan_compose (a b : string) (w : ascii) (ta tb : list object) :
  is_space w = true ->
  lex_scan a = Normal ta -> lex_scan b = Normal tb ->
  lex_scan (a ++ String w b) = Normal (ta ++ tb)%list.
Proof.
  intros Hw Ha Hb.
  destruct (lex_loop_compose _ a w b tb Hw Hb [] 0%nat ta ltac:(lia) Ha)
    as [fuel' Hfuel'].
  pose proof (lex_loop_fuel (S (String.length (a ++ String w b)))
                (a ++ String w b) (String.length (a ++ String w b)) [] 0%nat
                ltac:(lia)) as Hfuel.
  unfold lex_scan. cbv zeta.
  rewrite length_append in Hfuel |- *.
  change (String.length (String w b)) with (S (String.length b)) in Hfuel |- *.
  eapply lex_loop_agree; [reflexivity|exact Hfuel|exact Hfuel'|discriminate].
Qed.

Lemma lex_scan_compose_witness :
  lex_scan ("2*x" ++ String " " "sin y") =
  Normal ([create_value_token (Num #2); create_operator_token "*" 60 0 0;
           create_variable_token "x"] ++
          [create_function_token (Fun Math_sin); create_variable_token "y"])%list.
Proof.
  apply lex_scan_compose; [reflexivity | vm_compute; reflexivity
                          | vm_compute; reflexivity].
Defined.

Lemma slice_step str : forall k c rest,
  slice str k = String c rest -> slice str (k + 1) = rest.
Proof.
  induction str as [|d str' IH]; intros [|k] c rest; simpl; try discriminate.
  - intros [= _ <-]. apply slice_0.
  - apply IH.
Qed.

Lemma lex_body_pushes_nothing str n :
  lex_body str = Normal ([], n) ->
  exists w rest, str = String w rest /\ is_space w = true /\ n = 1%nat.
Proof.
  unfold lex_body. destruct (single_character str) as [r|] eqn:Hsingle.
  - intros [= ->]. destruct str as [|c rest]; [discriminate|].
    exists c, rest.
    destruct c as [[] [] [] [] [] [] [] []]; simpl in Hsingle;
      first [discriminate | injection Hsingle as <-; auto].
  - destruct (reg_float str); [discriminate|].
    destruct (reg_int str); [discriminate|].
    destruct (reg_sym str); [|discriminate].
    destruct (classify s); discriminate.
Qed.

Lemma lex_loop_extends fuel exp_str : forall tokens k toks,
  lex_loop fuel exp_str (String.length exp_str) tokens k = Normal toks ->
  exists more, toks = (tokens ++ more)%list /\
               (more = [] -> all_spaces (slice exp_str k) = true).
Proof.
  induction fuel as [|fuel IH]; intros tokens k toks; [discriminate|].
  rewrite lex_loop_S. destruct (k <? String.length exp_str)%nat eqn:Hk.
  - destruct (lex_body (slice exp_str k)) as [[pushed n]| | |] eqn:Hbody;
      try discriminate.
    intros Hloop. apply IH in Hloop as (more & -> & Hmore).
    exists (pushed ++ more)%list. split; [now rewrite app_assoc|].
    intros Hnil. apply app_eq_nil in Hnil as [-> ->].
    apply lex_body_pushes_nothing in Hbody as (w & rest & Hs & Hw & ->).
    rewrite Hs. simpl. rewrite Hw. simpl.
    rewrite <- (slice_step _ _ _ _ Hs). now apply Hmore.
  - apply Nat.ltb_ge in Hk. intros [= <-]. exists []. split; [now rewrite app_nil_r|].
    intros _. pose proof (length_slice exp_str k) as Hlen.
    destruct (slice exp_str k); [reflexivity | simpl in Hlen; lia].
Qed.

(** [lex_scan] returns no token exactly on the texts made of white
    space. *)
Lemma lex_scan_nothing (input : string) :
  lex_scan input = Normal [] <-> all_spaces input = true.
Proof.
  split.
  - intros Hlex. apply lex_loop_extends in Hlex as (more & Hnil & Hmore).
    rewrite slice_0 in Hmore. apply Hmore. now destruct more.
  - induction input as [|c rest IH]; [reflexivity|]. simpl.
    intros [Hc Hrest]%andb_true_iff.
    assert (Hskip : lex_scan (String c rest) = lex_scan rest).
    { apply is_space_facts in Hc as (_ & _ & _ & Hsingle).
      unfold lex_scan. cbv zeta.
      change (String.length (String c rest)) with (S (String.length rest)).
      rewrite lex_loop_S. change (slice (String c rest) 0) with (String c rest).
      unfold lex_body at 1. rewrite Hsingle.
      exact (lex_loop_shift _ (String c EmptyString) rest _ [] 0%nat). }
    rewrite Hskip. auto.
Qed.

(** ** The parsing engine *)

Lemma spans_inorder h lo hi r t :
  spans h lo hi r t ->
  Forall (fun k => (lo <= k < hi)%nat) (inorder h r t) /\
  StronglySorted lt (inorder h r t) /\
  length (inorder h r t) = nodes t.
Proof.
  induction 1 as [lo hi Hr|lo hi k o n Hk Hlook Hty Hval
                  |lo hi k o name Hk Hlook Hty Hval
                  |lo hi k o t Hk Hlook Hty Hval Hspan IH
                  |lo hi k o str t Hk Hlook Hty Hstr Hspan IH
                  |lo hi k o str tl tr Hk Hlook Hty Hstr Hl IHl Hr IHr];
    cbn [inorder nodes]; try rewrite Hlook; cbn [mbind option_bind].
  - repeat split; constructor.
  - repeat split; repeat constructor; lia.
  - repeat split; repeat constructor; lia.
  - destruct IH as (Hin & Hsorted & Hlen). repeat split.
    + constructor; [lia|]. eapply Forall_impl; [exact Hin|]. simpl. lia.
    + constructor; [exact Hsorted|].
      eapply Forall_impl; [exact Hin|]. simpl. lia.
    + simpl. now rewrite Hlen.
  - destruct IH as (Hin & Hsorted & Hlen). repeat split.
    + constructor; [lia|]. eapply Forall_impl; [exact Hin|]. simpl. lia.
    + constructor; [exact Hsorted|].
      eapply Forall_impl; [exact Hin|]. simpl. lia.
    + simpl. now rewrite Hlen.
  - destruct IHl as (Hinl & Hsl & Hlenl), IHr as (Hinr & Hsr & Hlenr).
    rewrite Forall_forall in Hinl, Hinr. repeat split.
    + apply Forall_app. split; [|constructor; [lia|]];
        apply Forall_forall; intros x Hx;
        [specialize (Hinl x Hx)|specialize (Hinr x Hx)]; simpl in *; lia.
    + apply StronglySorted_app_2; [|exact Hsl|].
      * intros x1 x2 Hx1 Hx2. specialize (Hinl x1 Hx1). simpl in Hinl.
        apply elem_of_cons in Hx2 as [->|Hx2]; [lia|].
        specialize (Hinr x2 Hx2). simpl in Hinr. lia.
      * constructor; [exact Hsr|]. apply Forall_forall. intros x Hx.
        specialize (Hinr x Hx). simpl in Hinr. lia.
    + rewrite length_app. simpl. lia.
Qed.

Lemma spans_size h lo hi r t :
  spans h lo hi r t ->
  (nodes t <= hi - lo)%nat /\ (height t <= S (hi - lo))%nat.
Proof. induction 1; cbn [nodes height]; lia. Qed.

(** X5: parsing leaves the token array as long as it was and writes only
    [left], [right] and [type] of operator tokens and [left] of function
    tokens: every other object, and the [value] and [lbp] of every
    object, are as [lex_scan] made them. *)
Theorem parse_keeps_tokens
    (input : string) (toks : list object) (root : option nat) (h : heap) :
  lex_scan input = Normal toks -> parse input = Normal (root, h) ->
  Forall2 kept toks h.
Proof.
  intros Hlex. unfold parse. rewrite Hlex.
  destruct (create_parse_tree toks) as [[r| | |] s'] eqn:Hparse;
    try discriminate.
  intros [= <- <-].
  now apply create_parse_tree_strict in Hparse as (Hkept & _);
    [|eapply lex_scan_ok, Hlex].
Qed.

Lemma parse_keeps_tokens_witness :
  exists h,
    parse "sin x" = Normal (Some 0%nat, h) /\
    Forall2 kept [create_function_token (Fun Math_sin); create_variable_token "x"] h.
Proof.
  eexists. split; [vm_compute; reflexivity|].
  apply (parse_keeps_tokens "sin x" _ (Some 0%nat)); vm_compute; reflexivity.
Defined.

(** X6: [parse] returns [undefined] exactly on the texts made of white
    space (the empty text among them), and then without any object. *)
Theorem parse_undefined_iff_blank (input : string) :
  (exists h, parse input = Normal (None, h)) <-> all_spaces input = true.
Proof.
  split.
  - intros [h Hparse]. apply lex_scan_nothing. unfold parse in Hparse.
    destruct (lex_scan input) as [toks| | |] eqn:Hlex; try discriminate.
    destruct (create_parse_tree toks) as [[r| | |] s'] eqn:Htree;
      try discriminate.
    injection Hparse as -> <-.
    apply create_parse_tree_strict in Htree as (_ & _ & Hnil);
      [|eapply lex_scan_ok, Hlex].
    now rewrite (Hnil eq_refl).
  - intros Hblank. apply lex_scan_nothing in Hblank. exists [].
    unfold parse. now rewrite Hblank.
Qed.

Lemma parse_undefined_iff_blank_witness :
  exists h, parse (String " " (String "009" EmptyString)) = Normal (None, h).
Proof.
  apply (proj2 (parse_undefined_iff_blank (String " " (String "009" EmptyString)))).
  reflexivity.
Defined.

(** X7: the tree that [parse] returns is a tree of the token objects in
    the order of the text: read from left to right, its nodes sit at
    strictly increasing indices of the token array, so no object occurs
    twice in it, and it has at most as many nodes as there are tokens. *)
Theorem parse_tree_in_source_order (input : string) (root : option nat) (h : heap) :
  parse input = Normal (root, h) ->
  exists t,
    represents h 0 (length h) root t /\
    StronglySorted lt (inorder h root t) /\
    Forall (fun k => (k < length h)%nat) (inorder h root t) /\
    length (inorder h root t) = nodes t /\
    (nodes t <= length h)%nat.
Proof.
  unfold parse. destruct (lex_scan input) as [toks| | |] eqn:Hlex;
    try discriminate.
  destruct (create_parse_tree toks) as [[r| | |] s'] eqn:Htree;
    try discriminate.
  intros [= <- <-].
  apply create_parse_tree_strict in Htree as (_ & [t Hspan] & _);
    [|eapply lex_scan_ok, Hlex].
  exists t. pose proof (spans_inorder _ _ _ _ _ Hspan) as (Hin & Hsorted & Hlen).
  pose proof (spans_size _ _ _ _ _ Hspan) as [Hnodes _].
  repeat split; auto using spans_represents; [|lia].
  eapply Forall_impl; [exact Hin|]. simpl. lia.
Qed.

Lemma parse_tree_in_source_order_witness :
  exists h t,
    parse "2+3*4" = Normal (Some 1%nat, h) /\
    represents h 0 (length h) (Some 1%nat) t /\
    StronglySorted lt (inorder h (Some 1%nat) t) /\
    Forall (fun k => (k < length h)%nat) (inorder h (Some 1%nat) t) /\
    length (inorder h (Some 1%nat) t) = nodes t /\
    (nodes t <= length h)%nat.
Proof.
  eexists. 
  destruct (parse_tree_in_source_order "2+3*4" (Some 1%nat) _
              ltac:(vm_compute; reflexivity)) as [t Ht].
  exists t. split; [reflexivity | exact Ht].
Defined.

(** X8: the evaluator of a tree that [parse] returned never recurses
    deeper than the number of tokens plus one: with that much fuel it
    ends, returning or throwing, and the token objects are as they
    were. *)
Theorem evaluate_depth_bounded
    (H : Math.host) (input : string) (root : option nat) (h : heap)
    (x y : number) :
  parse input = Normal (root, h) ->
  forall made0, exists c made1,
    ((exists v, c = Normal v) \/ (exists e, c = Throw e)) /\
    forall fuel,
      evaluate_tree H (S (length h) + fuel) root x y
        {| objects := h; made := made0 |}
      = (c, {| objects := h; made := made1 |}).
Proof.
  unfold parse. destruct (lex_scan input) as [toks| | |] eqn:Hlex;
    try discriminate.
  destruct (create_parse_tree toks) as [[r| | |] s'] eqn:Htree;
    try discriminate.
  intros [= <- <-] made0.
  apply create_parse_tree_strict in Htree as (_ & [t Hspan] & _);
    [|eapply lex_scan_ok, Hlex].
  pose proof (spans_size _ _ _ _ _ Hspan) as [_ Hheight].
  apply spans_represents in Hspan.
  destruct (evaluate_represented H _ _ _ _ _ x y Hspan made0)
    as (c & made1 & Heval & Hv & _).
  exists c, made1. split; [|intros fuel; apply Heval; lia].
  destruct c; simpl in Hv; try contradiction; eauto.
Qed.

Lemma evaluate_depth_bounded_witness :
  exists h c made1,
    parse "x+y" = Normal (Some 1%nat, h) /\
    ((exists v, c = Normal v) \/ (exists e, c = Throw e)) /\
    forall fuel,
      evaluate_tree sample_host (S (length h) + fuel) (Some 1%nat) #3 #4
        {| objects := h; made := 0 |}
      = (c, {| objects := h; made := made1 |}).
Proof.
  eexists.
  destruct (evaluate_depth_bounded sample_host "x+y" (Some 1%nat) _ #3 #4
              ltac:(vm_compute; reflexivity) 0%nat) as (c & made1 & Hc).
  exists c, made1. split; [reflexivity | exact Hc].
Defined.

Lemma bind_fine {S A B} (m : M S A) (k : A -> M S B) s :
  parser_fine (m s).1 ->
  (forall a s1, m s = (Normal a, s1) -> parser_fine (k a s1).1) ->
  parser_fine (bind m k s).1.
Proof.
  unfold bind. destruct (m s) as [[a| | |] s1]; simpl; intros Hm Hk;
    try exact Hm. apply (Hk a s1 eq_refl).
Qed.

Lemma nud_fine e t s :
  expression_fine e -> lexed s -> (t < length (tokens s))%nat ->
  parser_fine (nud e t s).1.
Proof.
  intros He Hs Ht. unfold nud. apply bind_fine.
  { unfold deref. destruct (tokens s !! t) eqn:Hlook; [exact I|].
    apply lookup_ge_None in Hlook. lia. }
  intros o s0 Hderef. unfold deref in Hderef.
  destruct (tokens s !! t); [|discriminate]. injection Hderef as _ <-.
  destruct (made_by o) as [str bp ra au| | | | |]; try exact I.
  - destruct (negb (au =? 1)); [simpl; unfold parser_errors; set_solver|].
    apply bind_fine; [apply He; [exact Hs|lia]|]. intros; exact I.
  - apply bind_fine; [apply He; [exact Hs|lia]|]. intros; exact I.
  - simpl. unfold parser_errors. set_solver.
  - apply bind_fine; [apply He; [exact Hs|lia]|]. intros e0 s1 _.
    destruct (negb _); [simpl; unfold parser_errors; set_solver|exact I].
Qed.

Lemma led_fine e t l s o bound :
  expression_fine e -> lexed s ->
  tokens s !! t = Some o -> lbp o = Some bound -> 0 < bound ->
  parser_fine (led e t l s).1.
Proof.
  intros He [[Hok Hi] Hlbp] Hlook Hbound Hpos. unfold led, bind at 1, deref.
  rewrite Hlook.
  pose proof (Forall_lookup_1 _ _ _ _ Hlbp Hlook) as Ho. simpl in Ho.
  pose proof (Forall_lookup_1 _ _ _ _ Hok Hlook) as Htok. unfold token_ok in Htok.
  rewrite Hbound in Ho.
  destruct (made_by o) as [str bp ra au| | | | |] eqn:Hmade; simpl in Ho;
    try discriminate.
  - apply bind_fine; [exact I|]. intros u1 s1 [= _ <-].
    apply bind_fine; [|intros; exact I].
    apply He; [|now apply operators_nonneg in Htok].
    split; [split|]; simpl.
    + apply Forall_alter; [exact Hok|]. intros x _. apply token_ok_set_left.
    + now rewrite length_alter.
    + apply Forall_alter; [exact Hlbp|]. now intros x _.
  - injection Ho as ->. lia.
  - simpl. unfold parser_errors. set_solver.
Qed.

(** On the tokens of [lex_scan], [expression] called with a binding
    power that is not negative throws only values of [parser_errors]. *)
Lemma expression_fine_both fuel :
  expression_fine (expression fuel) /\
  (forall rbp l s lo tl,
     lexed s -> 0 <= rbp -> (lo <= i s)%nat -> l <> None ->
     spans (tokens s) lo (i s) l tl ->
     parser_fine (expression_loop fuel rbp l s).1).
Proof.
  induction fuel as [|fuel [IHe IHl]];
    [unfold expression_fine; split; intros; exact I|].
  destruct (expression_parsed_both fuel) as [Hspec _].
  destruct (expression_strict_both fuel) as [Hstrict _]. split.
  - intros rbp s [[Hok Hi] Hlbp] Hrbp. simpl.
    destruct (at_end s) eqn:Hend; [exact I|]. apply Nat.leb_gt in Hend.
    apply bind_fine; [exact I|]. intros u1 s1 [= _ <-].
    assert (Hready : ready {| tokens := tokens s; i := S (i s) |})
      by (split; simpl; [exact Hok|lia]).
    apply bind_fine.
    { apply nud_fine; [exact IHe|split; [exact Hready|exact Hlbp]|exact Hend]. }
    intros l s2 Hnud.
    pose proof (nud_parsed _ _ _ _ _ Hspec Hready eq_refl Hnud)
      as (Hlen & Hle & Hhi & Hok2 & _ & _).
    apply nud_strict in Hnud as (Hkept & [tl Hspan] & Hl); auto.
    simpl in *. apply (IHl _ _ _ (i s) tl); auto; [|lia].
    split; [split; [exact Hok2|lia]|]. eapply lexed_kept; [|exact Hkept]. exact Hlbp.
  - intros rbp l s lo tl [[Hok Hi] Hlbp] Hrbp Hlo Hnone Hl. simpl.
    destruct (binds_tighter rbp (token_lbp s)) eqn:Hbinds; [|exact I].
    unfold token_lbp, token in Hbinds |- *.
    destruct (at_end s) eqn:Hend.
    { simpl in Hbinds. apply Z.ltb_lt in Hbinds. lia. }
    apply Nat.leb_gt in Hend.
    destruct (tokens s !! i s) as [o|] eqn:Hlook; [|discriminate].
    simpl in Hbinds. destruct (lbp o) as [bound|] eqn:Hbound; [|discriminate].
    simpl in Hbinds. apply Z.ltb_lt in Hbinds.
    apply bind_fine; [exact I|]. intros u1 s1 [= _ <-].
    assert (Hready : ready {| tokens := tokens s; i := S (i s) |})
      by (split; simpl; [exact Hok|lia]).
    apply bind_fine.
    { eapply led_fine; [exact IHe|split; [exact Hready|exact Hlbp]
                        |exact Hlook|exact Hbound|lia]. }
    intros l' s2 Hled.
    pose proof (led_parsed _ _ _ _ _ _ _ _ Hspec Hready eq_refl Hlo
                  (spans_represents _ _ _ _ _ Hl) Hled)
      as (Hlen & Hle & Hhi & Hok2 & _ & _).
    eapply led_strict in Hled as (Hkept & [t2 Hspan] & Hl');
      [|exact Hspec|exact Hstrict|exact Hready|reflexivity|exact Hlo|exact Hl].
    simpl in *. apply (IHl _ _ _ lo t2); auto; [|lia].
    split; [split; [exact Hok2|lia]|]. eapply lexed_kept; [|exact Hkept]. exact Hlbp.
Qed.

(** X9: of the [throw] statements of the program, [parse] reaches six
    and no other: the two of [lex_scan], "error in operator nud",
    "Internal error: nud called on ')'", "Unmatched left parenthesis." and
    "Interal error, led called on '('".  The [led] of a value, a variable,
    a function name or a right parenthesis is never called, and no call
    or property read of the parsing engine fails with a [TypeError].  (The
    call stack has no limit here: what an engine does when the nesting of
    the input exhausts it is not covered.) *)
Theorem parse_throws_only :
  (forall input e,
     parse input = Throw e ->
     (exists m, e = Message ("unknown symbol " ++ m)) \/
     (exists str, e = Message ("Failed in processing input: " ++ str)) \/
     e ∈ parser_errors) /\
  parse "foo" = Throw (Message "unknown symbol foo") /\
  parse "#" = Throw (Message "Failed in processing input: #") /\
  parse "*2" = Throw (Message "error in operator nud") /\
  parse ")" = Throw (Message "Internal error: nud called on ')'") /\
  parse "(2" = Throw (Message "Unmatched left parenthesis.") /\
  parse "2(3)" = Throw (Message "Interal error, led called on '('").
Proof.
  split; [|repeat split; vm_compute; reflexivity].
  intros input e. unfold parse.
  destruct (lex_scan input) as [toks|e'|v|] eqn:Hlex; try discriminate.
  - pose proof (lex_scan_ok _ _ Hlex) as Hok.
    pose proof (lex_scan_fresh _ _ Hlex) as Hfresh.
    assert (Hfine : parser_fine (create_parse_tree toks).1).
    { apply (proj1 (expression_fine_both _)); [|lia].
      split; [split; simpl; [exact Hok|lia]|]. simpl.
      eapply Forall_impl; [exact Hfresh|]. apply fresh_token_lbp. }
    destruct (create_parse_tree toks) as [[r| | |] s']; try discriminate.
    intros [= <-]. auto.
  - intros [= <-]. destruct (lex_scan_throws _ _ Hlex) as [Hm|Hm]; auto.
Qed.

Lemma parse_throws_only_witness :
  (exists m, Message "Unmatched left parenthesis." =
             Message ("unknown symbol " ++ m)) \/
  (exists str, Message "Unmatched left parenthesis." =
               Message ("Failed in processing input: " ++ str)) \/
  Message "Unmatched left parenthesis." ∈ parser_errors.
Proof.
  apply (proj1 parse_throws_only "(2+3"). vm_compute; reflexivity.
Defined.

(** X10: three literals joined by two operator tokens group by binding
    power and associativity, whatever the operators and the numbers: the
    second operator takes the middle operand when its binding power is
    above that with which the first parses its right operand (its own,
    less one if it is right-associative), and otherwise the first
    operator does. *)
Theorem binary_chain_grouping
    (n1 n2 n3 : number) (str1 str2 : string) (bp1 ra1 au1 bp2 ra2 au2 : Z) :
  (str1, bp1, ra1, au1) ∈ operators -> (str2, bp2, ra2, au2) ∈ operators ->
  exists root s',
    create_parse_tree
      [ create_value_token (Num n1); create_operator_token str1 bp1 ra1 au1;
        create_value_token (Num n2); create_operator_token str2 bp2 ra2 au2;
        create_value_token (Num n3) ] = (Normal root, s') /\
    represents (tokens s') 0 5 root
      (if bp1 - ra1 <? bp2
       then Binary str1 (Literal n1) (Binary str2 (Literal n2) (Literal n3))
       else Binary str2 (Binary str1 (Literal n1) (Literal n2)) (Literal n3)).
Proof.
  unfold operators. intros H1 H2.
  repeat (apply elem_of_cons in H1 as [H1|H1];
          [injection H1 as -> -> -> ->|]); [..|now apply elem_of_nil in H1];
  (repeat (apply elem_of_cons in H2 as [H2|H2];
           [injection H2 as -> -> -> ->|]); [..|now apply elem_of_nil in H2]);
  (eexists _, _; split; [vm_compute; reflexivity|]; build_represents).
Qed.

Lemma binary_chain_grouping_witness :
  exists root s',
    create_parse_tree
      [ create_value_token (Num #2); create_operator_token "^" 75 1 0;
        create_value_token (Num #3); create_operator_token "^" 75 1 0;
        create_value_token (Num #2) ] = (Normal root, s') /\
    represents (tokens s') 0 5 root
      (if 75 - 1 <? 75
       then Binary "^" (Literal #2) (Binary "^" (Literal #3) (Literal #2))
       else Binary "^" (Binary "^" (Literal #2) (Literal #3)) (Literal #2)).
Proof.
  apply (binary_chain_grouping #2 #3 #2 "^" "^" 75 1 0 75 1 0);
    vm_compute; repeat constructor.
Defined.

(** X11: a prefix operator or a function name, a literal, an operator
    and a literal: the prefix takes only the first literal unless the
    operator binds above 70, which of the operators of [lex_scan] only
    [^] does. *)
Theorem prefix_chain_grouping
    (n1 n2 : number) (pre : object) (str : string) (bp ra au : Z) :
  (str, bp, ra, au) ∈ operators ->
  (exists sign, sign ∈ ["+"; "-"] /\ pre = create_operator_token sign 50 0 1) \/
  (exists f, pre = create_function_token (Fun f)) ->
  let prefixed operand :=
    match made_by pre with
    | operator_token sign _ _ _ => Unary sign operand
    | _ => Apply (value pre) operand
    end in
  exists s',
    create_parse_tree
      [ pre; create_value_token (Num n1); create_operator_token str bp ra au;
        create_value_token (Num n2) ]
    = (Normal (Some (if 70 <? bp then 0%nat else 2%nat)), s') /\
    represents (tokens s') 0 4 (Some (if 70 <? bp then 0%nat else 2%nat))
      (if 70 <? bp
       then prefixed (Binary str (Literal n1) (Literal n2))
       else Binary str (prefixed (Literal n1)) (Literal n2)).
Proof.
  unfold operators. intros Hop Hpre.
  repeat (apply elem_of_cons in Hop as [Hop|Hop];
          [injection Hop as -> -> -> ->|]); [..|now apply elem_of_nil in Hop];
  (destruct Hpre as [(sign & Hsign & ->)|[f ->]];
   [apply elem_of_cons in Hsign as [->|Hsign];
    [|apply elem_of_cons in Hsign as [->|Hsign];
      [|now apply elem_of_nil in Hsign]]|]);
  (eexists; split; [vm_compute; reflexivity|]; build_represents).
Qed.

Lemma prefix_chain_grouping_witness :
  exists s',
    create_parse_tree
      [ create_operator_token "-" 50 0 1; create_value_token (Num #2);
        create_operator_token "^" 75 1 0; create_value_token (Num #2) ]
    = (Normal (Some 0%nat), s') /\
    represents (tokens s') 0 4 (Some 0%nat)
      (Unary "-" (Binary "^" (Literal #2) (Literal #2))).
Proof.
  apply (prefix_chain_grouping #2 #2 (create_operator_token "-" 50 0 1)
           "^" 75 1 0).
  - vm_compute. repeat constructor.
  - left. exists "-". split; [repeat constructor | reflexivity].
Defined.

(** ** The evaluator *)




